(** * te_llama: remapping HuggingFace Llama weights onto TransformerEngine layers

    A shallow embedding of [docs/examples/te_llama/te_llama.py]:

    - [Regex]: the fragment of Python's [re] that the layer-prefix pattern
      uses (literal characters, [.], [\d], greedy [+]) with backtracking
      [re.match] semantics;
    - [Py]: a state-and-exception monad for the imperative code;
    - [TeLlama]: [replace_params], [replace_decoder],
      [TELlamaForCausalLM.__new__] and [from_pretrained_local];
    - [Samples]: small checkpoints and models on which the definitions run;
    - [Further]: vocabulary and samples for the further properties at the end.

    Modelling conventions.  Parameter names are Python [str]; they are
    embedded as [string], whose characters are the code points 0..255.  A
    state dict is a [gmap string tensor].  Tensors belong to torch, and so do
    the three things the code does with them: reading [t.data[:]],
    [torch.cat(.., dim=0)] and the slice assignment [t.data[:] = v], which
    copies [v] into the storage of [t], keeping the shape and the dtype of
    [t], and raises when [v] cannot be broadcast to that shape.  They are a
    parameter ([Torch]); each of them may raise, and every theorem holds for
    every behaviour of torch within the two laws stated with [Torch].  A
    tensor is taken as a value (shape, dtype, elements): the source dict and
    the target dict are distinct objects that share no storage, and so are
    the entries of the target dict, as in [from_pretrained_local].  A Python
    [set] is a [gset string]; the order in which it is iterated is left open
    ([PySet]), and every theorem holds for every order.  A theorem about
    several calls that return is stated with one order for all of them: a call
    that returns gives the same result under every other order
    ([replace_params_order_irrelevant]).  What the file imports from
    [transformers] and [os.path] is a parameter ([Transformers]); such a
    collaborator may change the world and may raise. *)

From Stdlib Require Import Ascii String.
From stdpp Require Import gmap strings list fin_maps.

(* ===================================================================== *)
(** * Regular expressions: the fragment used by [layer_prefix_pat]        *)
(* ===================================================================== *)

Module Regex.

Inductive atom : Type :=
| Lit (c : ascii)   (* an ordinary character            *)
| Dot               (* [.]  : any character but newline *)
| Digit.            (* [\d] : a decimal digit           *)

Inductive item : Type :=
| One (a : atom)    (* [a]                  *)
| Plus (a : atom).  (* [a+], greedy         *)

Inductive token : Type :=
| TAtom (a : atom)
| TPlus.

(** [\d] on a [str] pattern matches the Unicode decimal digits; below code
    point 256 these are exactly ['0'..'9']. *)
Definition is_digit (c : ascii) : bool :=
  match Ascii.is_nat c with Some _ => true | None => false end.

Definition newline : ascii := "010"%char.

Definition atom_ok (a : atom) (c : ascii) : bool :=
  match a with
  | Lit d => bool_decide (c = d)
  | Dot => negb (bool_decide (c = newline))
  | Digit => is_digit c
  end.

(** Reading a pattern: [\d] is the digit class, [.] the wildcard, a
    postfix [+] repeats the atom before it, anything else is literal. *)
Fixpoint tokens (pat : string) : list token :=
  match pat with
  | EmptyString => []
  | String "\" (String "d" rest) => TAtom Digit :: tokens rest
  | String "." rest => TAtom Dot :: tokens rest
  | String "+" rest => TPlus :: tokens rest
  | String c rest => TAtom (Lit c) :: tokens rest
  end.

Fixpoint items (ts : list token) : list item :=
  match ts with
  | [] => []
  | TAtom a :: TPlus :: rest => Plus a :: items rest
  | TAtom a :: rest => One a :: items rest
  | TPlus :: rest => items rest
  end.

Definition compile (pat : string) : list item := items (tokens pat).

(** Greedy repetition with backtracking: after one [a], first try to take
    more, and only if the rest of the pattern then fails stop here. *)
Fixpoint plus_match (a : atom) (k : string → option string) (s : string)
  : option string :=
  match s with
  | EmptyString => None
  | String c s' =>
      if atom_ok a c then
        match plus_match a k s' with
        | Some m => Some (String c m)
        | None => String c <$> k s'
        end
      else None
  end.

(** [re_match r s] is [re.match(r, s)]: [None] when the pattern does not
    match at the start of [s], otherwise [Some m] with [m = m.group()], the
    matched text. *)
Fixpoint re_match (r : list item) (s : string) : option string :=
  match r with
  | [] => Some EmptyString
  | One a :: r' =>
      match s with
      | EmptyString => None
      | String c s' => if atom_ok a c then String c <$> re_match r' s' else None
      end
  | Plus a :: r' => plus_match a (re_match r') s
  end.

End Regex.

(* ===================================================================== *)
(** * Python effects: mutable state and exceptions                        *)
(* ===================================================================== *)

Module Py.

(** The exceptions the file raises itself or provokes, and a stand-in for
    whatever else a collaborator may raise.  The message of a
    [RuntimeError] is torch's and is not modelled. *)
Inductive exn : Type :=
| KeyError (key : string)
| AssertionError (msg : string)
| RuntimeError
| OtherError (what : string).

Global Instance exn_eq_dec : EqDecision exn.
Proof. solve_decision. Defined.

(** A computation over a store [S]: it always leaves a store behind, also
    when it raises (in-place mutations done before the raise stay). *)
Definition M (S A : Type) : Type := S → S * (exn + A).

Definition ret {S A} (x : A) : M S A := λ s, (s, inr x).

Definition bind {S A B} (c : M S A) (f : A → M S B) : M S B :=
  λ s, match c s with
       | (s', inr x) => f x s'
       | (s', inl e) => (s', inl e)
       end.

Definition raise {S A} (e : exn) : M S A := λ s, (s, inl e).

Definition modify {S} (f : S → S) : M S () := λ s, (f s, inr ()).

(** An operation that leaves the store alone: it yields its result or raises
    its exception. *)
Definition lift {S A} (r : exn + A) : M S A := λ s, (s, r).

(** [try: body finally: fin] *)
Definition try_finally {S A} (body : M S A) (fin : M S ()) : M S A :=
  λ s, match body s with
       | (s', r) =>
           match fin s' with
           | (s'', inr _) => (s'', r)
           | (s'', inl e) => (s'', inl e)
           end
       end.

(** [for x in xs: body x] *)
Fixpoint for_each {S A} (xs : list A) (body : A → M S ()) : M S () :=
  match xs with
  | [] => ret ()
  | x :: xs' => bind (body x) (λ _, for_each xs' body)
  end.

Definition when_ {S} (b : bool) (body : M S ()) : M S () :=
  if b then body else ret ().

(** An outcome that is a result, not an exception. *)
Definition succeeds {A} (r : exn + A) : Prop :=
  match r with inr _ => True | inl _ => False end.

Global Instance succeeds_dec {A} (r : exn + A) : Decision (succeeds r).
Proof. destruct r; apply _. Defined.

(** Iterating over a Python [set] visits every element once, in an order
    the language does not specify. *)
Class PySet : Type := {
  set_iter : gset string → list string;
  set_iter_perm : ∀ X, set_iter X ≡ₚ elements X
}.

End Py.

(** The monad notations [x ← c; k] and [c ;; k] are stdpp's. *)
Global Instance M_ret {S} : MRet (Py.M S) := λ A, Py.ret.
Global Instance M_bind {S} : MBind (Py.M S) := λ A B f c, Py.bind c f.

(* ===================================================================== *)
(** * te_llama.py                                                         *)
(* ===================================================================== *)

Module TeLlama.
Import Regex Py.

(** ** Tensors

    What the file uses of [torch].  A [tensor] is a tensor as a value: its
    shape, its dtype and its elements.

    - [data_getslice t] is [t.data[:]] where it is read: the whole of [t],
      or the exception torch raises (it refuses to slice a tensor that has
      no dimension).
    - [torch_cat_dim0 a b] is [torch.cat((a, b), dim=0)]; torch raises when
      the shapes of [a] and [b] do not go together.
    - [data_setslice t v] is what [t] holds after [t.data[:] = v]: the
      elements of [v], broadcast to the shape of [t] and converted to its
      dtype; when [v] cannot be broadcast to the shape of [t] torch raises
      [RuntimeError] before anything is written, and [t] is as before.

    Two laws: a slice that is read is the tensor itself, and a slice
    assignment keeps the shape and the dtype of its target, which alone
    decide what a later assignment into it does. *)
Class Torch : Type := {
  tensor : Type;
  tensor_eq_dec :: EqDecision tensor;
  data_getslice : tensor → exn + tensor;
  torch_cat_dim0 : tensor → tensor → exn + tensor;
  data_setslice : tensor → tensor → exn + tensor;
  getslice_whole : ∀ t v, data_getslice t = inr v → v = t;
  setslice_layout : ∀ t v t' w,
    data_setslice t v = inr t' → data_setslice t' w = data_setslice t w
}.

Abbreviation state_dict := (gmap string tensor).

(** [k in d] *)
Definition contains {torch : Torch} (k : string) : M state_dict bool :=
  λ te, (te, inr (bool_decide (is_Some (te !! k)))).

(** [d[k]] on a dict that the code only reads. *)
Definition getitem {S V} (d : gmap string V) (k : string) : M S V :=
  match d !! k with
  | Some v => ret v
  | None => raise (KeyError k)
  end.

(** [hf_state_dict[k].data[:]] *)
Definition getitem_data {torch : Torch} {S} (d : state_dict) (k : string)
  : M S tensor :=
  t ← getitem d k;
  lift (data_getslice t).

(** [te_state_dict[k].data[:] = v]: the tensor under [k] is looked up and
    [v] is copied into it; the dict keeps its keys, and when the copy raises
    it keeps its tensors too. *)
Definition setitem_data {torch : Torch} (k : string) (v : tensor)
  : M state_dict () :=
  λ te, match te !! k with
        | Some t =>
            match data_setslice t v with
            | inr t' => (<[k := t']> te, inr ())
            | inl e => (te, inl e)
            end
        | None => (te, inl (KeyError k))
        end.

Definition layer_prefix_pat : list item :=
  Eval cbv in compile "model.layers.\d+.".

(** [m = re.match(layer_prefix_pat, param_key)]; [Some (m.group())] when
    [m is not None]. *)
Definition match_layer_prefix (param_key : string) : option string :=
  re_match layer_prefix_pat param_key.

(** The first loop of [replace_params].  The keys are visited in the order
    the map lists them; the set built does not depend on it. *)
Definition collect_layer_prefixes {torch : Torch} (hf_state_dict : state_dict)
  : gset string :=
  foldl (λ all_layer_prefixes param_key,
           match match_layer_prefix param_key with
           | Some g => {[ g ]} ∪ all_layer_prefixes
           | None => all_layer_prefixes
           end)
        ∅ (map_to_list hf_state_dict).*1.

(** The body of the second loop of [replace_params], statement by
    statement.  In each assignment the right-hand side is evaluated, left to
    right, before the target is looked up and written. *)
Definition replace_layer {torch : Torch} (hf_state_dict : state_dict)
    (layer_prefix : string) : M state_dict () :=
  (b ← contains (layer_prefix +:+ "self_attention.layernorm_qkv.layer_norm_weight") ;
   when_ b
     (v ← getitem_data hf_state_dict (layer_prefix +:+ "input_layernorm.weight") ;
      setitem_data (layer_prefix +:+ "self_attention.layernorm_qkv.layer_norm_weight") v)) ;;
  (b ← contains (layer_prefix +:+ "self_attention.layernorm_qkv.query_weight") ;
   when_ b
     (v ← getitem_data hf_state_dict (layer_prefix +:+ "self_attn.q_proj.weight") ;
      setitem_data (layer_prefix +:+ "self_attention.layernorm_qkv.query_weight") v)) ;;
  (b ← contains (layer_prefix +:+ "self_attention.layernorm_qkv.key_weight") ;
   when_ b
     (v ← getitem_data hf_state_dict (layer_prefix +:+ "self_attn.k_proj.weight") ;
      setitem_data (layer_prefix +:+ "self_attention.layernorm_qkv.key_weight") v)) ;;
  (b ← contains (layer_prefix +:+ "self_attention.layernorm_qkv.value_weight") ;
   when_ b
     (v ← getitem_data hf_state_dict (layer_prefix +:+ "self_attn.v_proj.weight") ;
      setitem_data (layer_prefix +:+ "self_attention.layernorm_qkv.value_weight") v)) ;;
  (b ← contains (layer_prefix +:+ "self_attention.proj.weight") ;
   when_ b
     (v ← getitem_data hf_state_dict (layer_prefix +:+ "self_attn.o_proj.weight") ;
      setitem_data (layer_prefix +:+ "self_attention.proj.weight") v)) ;;
  (b ← contains (layer_prefix +:+ "layernorm_mlp.layer_norm_weight") ;
   when_ b
     (v ← getitem_data hf_state_dict (layer_prefix +:+ "post_attention_layernorm.weight") ;
      setitem_data (layer_prefix +:+ "layernorm_mlp.layer_norm_weight") v)) ;;
  (b ← contains (layer_prefix +:+ "layernorm_mlp.fc1_weight") ;
   when_ b
     (v ← (g ← getitem_data hf_state_dict (layer_prefix +:+ "mlp.gate_proj.weight") ;
           u ← getitem_data hf_state_dict (layer_prefix +:+ "mlp.up_proj.weight") ;
           lift (torch_cat_dim0 g u)) ;
      setitem_data (layer_prefix +:+ "layernorm_mlp.fc1_weight") v)) ;;
  (b ← contains (layer_prefix +:+ "layernorm_mlp.fc2_weight") ;
   when_ b
     (v ← getitem_data hf_state_dict (layer_prefix +:+ "mlp.down_proj.weight") ;
      setitem_data (layer_prefix +:+ "layernorm_mlp.fc2_weight") v)).

(** [replace_params(hf_state_dict, te_state_dict)].  The result pairs the
    target dict as the call leaves it with the returned set or the exception
    raised. *)
Definition replace_params {torch : Torch} {order : PySet}
    (hf_state_dict : state_dict) : M state_dict (gset string) :=
  let all_layer_prefixes := collect_layer_prefixes hf_state_dict in
  for_each (set_iter all_layer_prefixes) (replace_layer hf_state_dict) ;;
  ret all_layer_prefixes.

(** ** The decoder-layer slot and the collaborators *)

(** Values of the module attribute
    [transformers.models.llama.modeling_llama.LlamaDecoderLayer]. *)
Inductive decoder_cls : Type :=
| HFLlamaDecoderLayer
| TELlamaDecoderLayer
| OtherDecoderLayer (name : string).

Inductive dtype : Type := float32 | float16 | bfloat16.

(** What the collaborators can read and change: the class slot and the
    file system. *)
Record world : Type := World {
  LlamaDecoderLayer : decoder_cls;
  files : gset string;
  dirs : gset string
}.

Record model {torch : Torch} : Type := Model {
  layer_cls : decoder_cls;
  parameters : state_dict
}.
Arguments Model {torch} layer_cls parameters.

(** Calls into the collaborators, recorded in the order they are made. *)
Inductive call : Type :=
| CallLlamaForCausalLM
| CallTo (d : dtype)
| CallGetCheckpointShardFiles (path archive_file : string)
| CallLoadStateDict (shard_file : string)
| CallLoadStateDictIntoModel.

Record process : Type := Process {
  globals : world;
  calls : list call
}.

(** The parts of [transformers], [torch.nn] and [os.path] the file imports. *)
Class Transformers {torch : Torch} : Type := {
  LlamaConfig : Type;
  WEIGHTS_INDEX_NAME : string;
  _add_variant : string → option string → string;
  os_path_join : string → string → string → string;
  LlamaForCausalLM : LlamaConfig → M world model;
  module_to : model → dtype → M world model;
  get_checkpoint_shard_files : string → string → M world (list string * string);
  load_state_dict : string → M world state_dict;
  _load_state_dict_into_model : model → state_dict → string → M world (model * list string)
}.

(** A call into a collaborator: it runs on the world and is recorded. *)
Definition extern {A} (c : call) (f : M world A) : M process A :=
  λ p, match f (globals p) with
       | (w, r) => (Process w (calls p ++ [c]), r)
       end.

Definition get_LlamaDecoderLayer : M process decoder_cls :=
  λ p, (p, inr (LlamaDecoderLayer (globals p))).

Definition set_LlamaDecoderLayer (c : decoder_cls) : M process () :=
  modify (λ p, Process (World c (files (globals p)) (dirs (globals p))) (calls p)).

Definition os_path_isfile (path : string) : M process bool :=
  λ p, (p, inr (bool_decide (path ∈ files (globals p)))).

Definition os_path_isdir (path : string) : M process bool :=
  λ p, (p, inr (bool_decide (path ∈ dirs (globals p)))).

(** [with replace_decoder(te_decodder_cls): body].  The generator runs up
    to its [yield] on entry; on exit, normal or not, it is resumed inside
    the [try], so the [finally] clause runs and an exception of the body
    propagates. *)
Definition replace_decoder {A} (te_decodder_cls : decoder_cls)
    (body : M process A) : M process A :=
  original_llama_decoder_cls ← get_LlamaDecoderLayer;
  set_LlamaDecoderLayer te_decodder_cls ;;
  try_finally body (set_LlamaDecoderLayer original_llama_decoder_cls).

(** [TELlamaForCausalLM.__new__(cls, config)] *)
Definition TELlamaForCausalLM_new {torch : Torch} {tf : Transformers}
    (config : LlamaConfig) : M process model :=
  llama_for_causal_lm ←
    replace_decoder TELlamaDecoderLayer
      (extern CallLlamaForCausalLM (LlamaForCausalLM config));
  mret llama_for_causal_lm.

(** [replace_params(state_dict, vanilla_model.state_dict())]: the state
    dict of the model holds views of its parameters, so the writes land in
    the model. *)
Definition replace_params_in_model {torch : Torch} {order : PySet}
    (state_dict : state_dict) (vanilla_model : model)
  : M process (model * gset string) :=
  match replace_params state_dict (parameters vanilla_model) with
  | (te, inr replaced_layers) =>
      mret (Model (layer_cls vanilla_model) te, replaced_layers)
  | (_, inl e) => raise e
  end.

(** The shard loop of [from_pretrained_local]; the accumulator is the model
    and [error_msgs]. *)
Fixpoint load_shards {torch : Torch} {tf : Transformers} {order : PySet}
    (resolved_archive_file : list string)
    (vanilla_model : model) (error_msgs : list string)
  : M process (model * list string) :=
  match resolved_archive_file with
  | [] => mret (vanilla_model, error_msgs)
  | shard_file :: rest =>
      state_dict ← extern (CallLoadStateDict shard_file) (load_state_dict shard_file);
      '(vanilla_model, replaced_layers) ← replace_params_in_model state_dict vanilla_model;
      '(vanilla_model, msgs) ←
        extern CallLoadStateDictIntoModel
          (_load_state_dict_into_model vanilla_model state_dict "");
      load_shards rest vanilla_model (error_msgs ++ msgs)
  end.

Definition unsupported_msg : string :=
  "Only sharded PyTorch ckpt format supported at the moment".

(** Step 1 of [from_pretrained_local]:
    [vanilla_model = cls(config).to(kwargs['torch_dtype'])]. *)
Definition build_vanilla_model {torch : Torch} {tf : Transformers}
    (config : LlamaConfig) (kwargs : gmap string dtype) : M process model :=
  m ← TELlamaForCausalLM_new config;
  torch_dtype ← getitem kwargs "torch_dtype";
  extern (CallTo torch_dtype) (module_to m torch_dtype).

(** [TELlamaForCausalLM.from_pretrained_local(path, config=config, **kwargs)].
    [is_sharded] is [True] wherever it is read, so the branch under
    [if not is_sharded] never runs. *)
Definition from_pretrained_local {torch : Torch} {tf : Transformers} {order : PySet}
    (pretrained_model_name_or_path : string) (config : LlamaConfig)
    (kwargs : gmap string dtype) : M process model :=
  vanilla_model ← build_vanilla_model config kwargs;
  is_local ← os_path_isdir pretrained_model_name_or_path;
  let subfolder := "" in
  let variant := None in
  let index := os_path_join pretrained_model_name_or_path subfolder
                 (_add_variant WEIGHTS_INDEX_NAME variant) in
  b ← os_path_isfile index;
  archive_file ← (if b : bool then mret index
                  else raise (AssertionError unsupported_msg));
  '(resolved_archive_file, sharded_metadata) ←
    extern (CallGetCheckpointShardFiles pretrained_model_name_or_path archive_file)
      (get_checkpoint_shard_files pretrained_model_name_or_path archive_file);
  '(vanilla_model, error_msgs) ← load_shards resolved_archive_file vanilla_model [];
  mret vanilla_model.

(** ** The correspondence table, read off [replace_layer]

    [replace_layer_run] below shows that [replace_layer] is this table run
    top to bottom. *)

Inductive rhs : Type :=
| Copy (src : string)          (* [hf[p + src].data[:]]                  *)
| Cat (src1 src2 : string).    (* [torch.cat((hf[p + src1].data[:], hf[p + src2].data[:]), dim=0)] *)

Record rule : Type := Rule { target : string; value : rhs }.

Definition correspondence_table : list rule :=
  [ Rule "self_attention.layernorm_qkv.layer_norm_weight" (Copy "input_layernorm.weight");
    Rule "self_attention.layernorm_qkv.query_weight" (Copy "self_attn.q_proj.weight");
    Rule "self_attention.layernorm_qkv.key_weight" (Copy "self_attn.k_proj.weight");
    Rule "self_attention.layernorm_qkv.value_weight" (Copy "self_attn.v_proj.weight");
    Rule "self_attention.proj.weight" (Copy "self_attn.o_proj.weight");
    Rule "layernorm_mlp.layer_norm_weight" (Copy "post_attention_layernorm.weight");
    Rule "layernorm_mlp.fc1_weight" (Cat "mlp.gate_proj.weight" "mlp.up_proj.weight");
    Rule "layernorm_mlp.fc2_weight" (Copy "mlp.down_proj.weight") ].

Definition sources (v : rhs) : list string :=
  match v with
  | Copy src => [src]
  | Cat src1 src2 => [src1; src2]
  end.

(** [hf[k].data[:]] as an outcome: the lookup, then the slice. *)
Definition read {torch : Torch} (hf : state_dict) (k : string) : exn + tensor :=
  match hf !! k with
  | Some t => data_getslice t
  | None => inl (KeyError k)
  end.

(** Evaluating a right-hand side under prefix [p]: left to right, and the
    first lookup, slice or concatenation that raises ends it. *)
Definition eval_rhs {torch : Torch} (hf : state_dict) (p : string) (v : rhs)
  : exn + tensor :=
  match v with
  | Copy src => read hf (p +:+ src)
  | Cat src1 src2 =>
      match read hf (p +:+ src1) with
      | inr g =>
          match read hf (p +:+ src2) with
          | inr u => torch_cat_dim0 g u
          | inl e => inl e
          end
      | inl e => inl e
      end
  end.

(** Assigning an evaluated right-hand side to the slice of tensor [t]: the
    tensor afterwards, or the exception of the right-hand side or of the
    copy. *)
Definition store {torch : Torch} (t : tensor) (v : exn + tensor) : exn + tensor :=
  match v with
  | inr x => data_setslice t x
  | inl e => inl e
  end.

(** What rule [r] under prefix [p] makes of its target tensor [t]. *)
Definition assign {torch : Torch} (hf : state_dict) (p : string) (r : rule)
    (t : tensor) : exn + tensor :=
  store t (eval_rhs hf p (value r)).

(** One guarded assignment: the target key and what its right-hand side
    evaluates to. *)
Definition step {torch : Torch} : Type := string * (exn + tensor).

Definition layer_steps {torch : Torch} (hf : state_dict) (p : string) : list step :=
  (λ r, (p +:+ target r, eval_rhs hf p (value r))) <$> correspondence_table.

Definition steps_of {torch : Torch} (hf : state_dict) (ps : list string) : list step :=
  ps ≫= layer_steps hf.

Fixpoint run_steps {torch : Torch} (steps : list step) (te : state_dict)
  : state_dict * (exn + ()) :=
  match steps with
  | [] => (te, inr ())
  | (k, v) :: rest =>
      match te !! k with
      | None => run_steps rest te
      | Some t =>
          match store t v with
          | inr t' => run_steps rest (<[k := t']> te)
          | inl e => (te, inl e)
          end
      end
  end.

(** ** Vocabulary of the properties *)

(** A rule under prefix [p] is applicable when its target key is in the
    target dict. *)
Definition applicable {torch : Torch} (te : state_dict) (p : string) (r : rule) : Prop :=
  is_Some (te !! (p +:+ target r)).

(** All source keys that rule [r] reads under [p] are in the source dict. *)
Definition has_sources {torch : Torch} (hf : state_dict) (p : string) (r : rule) : Prop :=
  Forall (λ src, is_Some (hf !! (p +:+ src))) (sources (value r)).

(** The source dict has every expected key of every layer prefix found in
    it. *)
Definition complete_source {torch : Torch} (hf : state_dict) : Prop :=
  set_Forall (λ p, Forall (has_sources hf p) correspondence_table)
             (collect_layer_prefixes hf).

(** The target dict has every target key of every layer prefix found in the
    source dict. *)
Definition complete_target {torch : Torch} (hf te : state_dict) : Prop :=
  set_Forall (λ p, Forall (applicable te p) correspondence_table)
             (collect_layer_prefixes hf).

(** Every applicable rule finds its source keys. *)
Definition sources_available {torch : Torch} (hf te : state_dict) : Prop :=
  set_Forall (λ p, Forall (λ r, applicable te p r → has_sources hf p r)
                          correspondence_table)
             (collect_layer_prefixes hf).

(** A property of the target tensor of every applicable rule of every layer
    prefix found in the source dict. *)
Definition on_targets {torch : Torch} (P : string → rule → tensor → Prop)
    (hf te : state_dict) : Prop :=
  set_Forall (λ p, Forall (λ r, from_option (P p r) True (te !! (p +:+ target r)))
                          correspondence_table)
             (collect_layer_prefixes hf).

(** Every applicable rule goes through: its sources are found and sliced,
    its value is computed and the target tensor takes it. *)
Definition rules_succeed {torch : Torch} (hf te : state_dict) : Prop :=
  on_targets (λ p r t, succeeds (assign hf p r t)) hf te.

(** torch accepts what rule [r] under [p] does with target tensor [t]: each
    source tensor that is found can be sliced, and when all are found the
    value is computed and [t] takes it. *)
Definition torch_accepts {torch : Torch} (hf : state_dict) (p : string) (r : rule)
    (t : tensor) : Prop :=
  Forall (λ src, from_option (λ s, succeeds (data_getslice s)) True (hf !! (p +:+ src)))
         (sources (value r)) ∧
  (has_sources hf p r → succeeds (assign hf p r t)).

(** No applicable rule is refused by torch: a call can then only fail for a
    missing source key. *)
Definition tensors_fit {torch : Torch} (hf te : state_dict) : Prop :=
  on_targets (torch_accepts hf) hf te.

(** The value of rule [r] under [p] is computed, and the slice assignment
    stores it in [t] as it is: what torch does when [t] has the shape and the
    dtype of the value. *)
Definition stored_unchanged {torch : Torch} (hf : state_dict) (p : string) (r : rule)
    (t : tensor) : Prop :=
  match eval_rhs hf p (value r) with
  | inr v => data_setslice t v = inr v
  | inl _ => False
  end.

(** Wherever a rule finds its target and its sources, the target tensor has
    the shape and the dtype of the value the rule assigns. *)
Definition conforming {torch : Torch} (hf te : state_dict) : Prop :=
  on_targets (λ p r t, has_sources hf p r → stored_unchanged hf p r t) hf te.

(** A parameter of the layer with prefix [p] is not in [te'] what it is in
    [te]. *)
Definition changed_under {torch : Torch} (te te' : state_dict) (p : string) : Prop :=
  Exists (λ r, te' !! (p +:+ target r) ≠ te !! (p +:+ target r)) correspondence_table.

Global Instance applicable_dec {torch : Torch} te p r : Decision (applicable te p r).
Proof. unfold applicable. apply _. Defined.
Global Instance has_sources_dec {torch : Torch} hf p r : Decision (has_sources hf p r).
Proof. unfold has_sources. apply _. Defined.
Global Instance complete_source_dec {torch : Torch} hf : Decision (complete_source hf).
Proof. unfold complete_source. apply _. Defined.
Global Instance complete_target_dec {torch : Torch} hf te : Decision (complete_target hf te).
Proof. unfold complete_target. apply _. Defined.
Global Instance sources_available_dec {torch : Torch} hf te :
  Decision (sources_available hf te).
Proof. unfold sources_available. apply _. Defined.
Global Instance from_option_dec {A} (P : A → Prop) `{∀ x, Decision (P x)} (o : option A) :
  Decision (from_option P True o).
Proof. destruct o; apply _. Defined.
Global Instance on_targets_dec {torch : Torch} P `{∀ p r t, Decision (P p r t)} hf te :
  Decision (on_targets P hf te).
Proof. unfold on_targets. apply _. Defined.
Global Instance rules_succeed_dec {torch : Torch} hf te : Decision (rules_succeed hf te).
Proof. unfold rules_succeed. apply _. Defined.
Global Instance torch_accepts_dec {torch : Torch} hf p r t :
  Decision (torch_accepts hf p r t).
Proof. unfold torch_accepts. apply _. Defined.
Global Instance tensors_fit_dec {torch : Torch} hf te : Decision (tensors_fit hf te).
Proof. unfold tensors_fit. apply _. Defined.
Global Instance stored_unchanged_dec {torch : Torch} hf p r t :
  Decision (stored_unchanged hf p r t).
Proof. unfold stored_unchanged. destruct (eval_rhs hf p (value r)); apply _. Defined.
Global Instance conforming_dec {torch : Torch} hf te : Decision (conforming hf te).
Proof. unfold conforming. apply _. Defined.
Global Instance changed_under_dec {torch : Torch} te te' p : Decision (changed_under te te' p).
Proof. unfold changed_under. apply _. Defined.

(** Python's iteration order is not specified; [elements] is one order. *)
Definition elements_order : PySet :=
  {| set_iter := elements; set_iter_perm := λ X, reflexivity _ |}.

(** ** The shape of layer prefixes and target keys *)

Fixpoint all_ok (a : atom) (s : string) : bool :=
  match s with
  | EmptyString => true
  | String c s' => atom_ok a c && all_ok a s'
  end.

(** What [layer_prefix_pat] can match: ["model"], any character,
    ["layers"], any character, digits, any character. *)
Definition prefix_of (c1 c2 : ascii) (ds : string) (c3 : ascii) : string :=
  "model" +:+ String c1 ("layers" +:+ String c2 (ds +:+ String c3 "")).

Definition valid_prefix (p : string) : Prop :=
  ∃ c1 c2 ds c3, p = prefix_of c1 c2 ds c3 ∧ all_ok Digit ds = true.

Definition target_suffixes : list string := target <$> correspondence_table.

(** [te'] is [te] with every applicable rule of every layer prefix of [hf]
    carried out, and nothing else changed. *)
Definition remapped {torch : Torch} (hf te te' : state_dict) : Prop :=
  dom te' = dom te ∧
  (∀ p r t, p ∈ collect_layer_prefixes hf → r ∈ correspondence_table →
            te !! (p +:+ target r) = Some t →
            ∃ t', assign hf p r t = inr t' ∧ te' !! (p +:+ target r) = Some t') ∧
  (∀ k, (∀ p r, p ∈ collect_layer_prefixes hf → r ∈ correspondence_table →
                k ≠ p +:+ target r) →
        te' !! k = te !! k).

(** The calls the shard loop makes when nothing raises. *)
Definition shard_calls (shards : list string) : list call :=
  shards ≫= λ shard_file, [CallLoadStateDict shard_file; CallLoadStateDictIntoModel].

End TeLlama.

(* ===================================================================== *)
(** * Sample checkpoints and models                                       *)
(* ===================================================================== *)

Module Samples.
Import Py TeLlama.

(** ** One-dimensional integer tensors

    [torch.tensor([7, 8])], of dtype [int64], as the list of its elements,
    taken within the range of [int64].  Such a tensor can always be sliced,
    two of them can always be concatenated, and [t.data[:] = v] copies [v]
    when it has the length of [t], fills [t] with the element of [v] when [v]
    has one element, and raises [RuntimeError] otherwise. *)
Definition vec_setslice (t v : list Z) : exn + list Z :=
  if decide (length v = length t) then inr v
  else match v with
       | [x] => inr (replicate (length t) x)
       | _ => inl RuntimeError
       end.

Definition int64_vectors : Torch.
Proof.
  refine {| tensor := list Z;
            data_getslice := inr;
            torch_cat_dim0 := λ a b, inr (a ++ b);
            data_setslice := vec_setslice |}.
  - intros t v [= ->]. reflexivity.
  - intros t v t' w Hcopy.
    assert (length t' = length t) as Hlen.
    { unfold vec_setslice in Hcopy. destruct (decide (length v = length t)) as [Hv|Hv].
      - injection Hcopy as <-. exact Hv.
      - destruct v as [|x [|y v]]; try discriminate Hcopy.
        injection Hcopy as <-. apply length_replicate. }
    unfold vec_setslice. rewrite Hlen. reflexivity.
Defined.

#[local] Existing Instance int64_vectors.

(** The tensors of one decoder layer in a HuggingFace checkpoint.  The gate
    projection has two elements and the up projection three, so the two
    orders of concatenation differ. *)
Definition hf_layer (i : string) (b : Z) : list (string * tensor) :=
  let p := "model.layers." +:+ i +:+ "." in
  [ (p +:+ "input_layernorm.weight", [b + 1; b + 2]);
    (p +:+ "self_attn.q_proj.weight", [b + 3; b + 4]);
    (p +:+ "self_attn.k_proj.weight", [b + 5]);
    (p +:+ "self_attn.v_proj.weight", [b + 6]);
    (p +:+ "self_attn.o_proj.weight", [b + 7; b + 8]);
    (p +:+ "post_attention_layernorm.weight", [b + 9; b + 10]);
    (p +:+ "mlp.gate_proj.weight", [b + 11; b + 12]);
    (p +:+ "mlp.up_proj.weight", [b + 13; b + 14; b + 15]);
    (p +:+ "mlp.down_proj.weight", [b + 16]) ]%Z.

(** The parameters of one decoder layer in a freshly built TE model of the
    same sizes. *)
Definition te_layer (i : string) : list (string * tensor) :=
  let p := "model.layers." +:+ i +:+ "." in
  [ (p +:+ "self_attention.layernorm_qkv.layer_norm_weight", [0; 0]);
    (p +:+ "self_attention.layernorm_qkv.query_weight", [0; 0]);
    (p +:+ "self_attention.layernorm_qkv.key_weight", [0]);
    (p +:+ "self_attention.layernorm_qkv.value_weight", [0]);
    (p +:+ "self_attention.proj.weight", [0; 0]);
    (p +:+ "layernorm_mlp.layer_norm_weight", [0; 0]);
    (p +:+ "layernorm_mlp.fc1_weight", [0; 0; 0; 0; 0]);
    (p +:+ "layernorm_mlp.fc2_weight", [0]) ]%Z.

Definition shard1 : state_dict :=
  list_to_map (("model.embed_tokens.weight", [7%Z]) :: hf_layer "0" 100).

Definition shard2 : state_dict :=
  list_to_map (hf_layer "1" 200 ++ [("lm_head.weight", [9%Z])]).

(** A two-layer checkpoint in one piece. *)
Definition ckpt : state_dict := shard1 ∪ shard2.

Definition others : list (string * tensor) :=
  [ ("model.embed_tokens.weight", [0%Z]); ("model.norm.weight", [0%Z]);
    ("lm_head.weight", [0%Z]) ].

(** A TE model with two decoder layers, and one with a single layer. *)
Definition te_two : state_dict := list_to_map (te_layer "0" ++ te_layer "1" ++ others).
Definition te_one : state_dict := list_to_map (te_layer "0" ++ others).

(** A target dict with a single parameter of layer 0. *)
Definition te_small : state_dict :=
  {[ "model.layers.0.self_attention.proj.weight" := [0; 0]%Z ]}.

(** A shard whose layer 0 lacks its query projection. *)
Definition shard_without_q : state_dict :=
  delete "model.layers.0.self_attn.q_proj.weight" shard1.

(** Layer 0 in full and a single stray tensor of layer 1. *)
Definition partial_ckpt : state_dict :=
  <[ "model.layers.1.mlp.down_proj.weight" := [216%Z] ]> shard1.

Definition embeddings_only : state_dict :=
  {[ "model.embed_tokens.weight" := [7%Z] ]}.

(** A stand-in for the collaborators: the constructor builds a model with
    [config] layers of the class found in the slot, the checkpoint has the
    two shards above. *)
Definition collaborators : Transformers := {|
  LlamaConfig := nat;
  WEIGHTS_INDEX_NAME := "pytorch_model.bin.index.json";
  _add_variant := λ weights_name variant,
    match variant with
    | None => weights_name
    | Some v => weights_name +:+ "." +:+ v
    end;
  os_path_join := λ a b c, if decide (b = "") then a +:+ "/" +:+ c
                           else a +:+ "/" +:+ b +:+ "/" +:+ c;
  LlamaForCausalLM := λ config w,
    (w, inr (Model (LlamaDecoderLayer w)
               (match config with
                | 0 => list_to_map others
                | 1 => te_one
                | _ => te_two
                end)));
  module_to := λ m d, ret m;
  get_checkpoint_shard_files := λ path archive_file,
    ret ([path +:+ "/pytorch_model-00001-of-00002.bin";
          path +:+ "/pytorch_model-00002-of-00002.bin"], "");
  load_state_dict := λ shard_file,
    ret (if decide (shard_file = "ckpt/pytorch_model-00001-of-00002.bin")
         then shard1 else shard2);
  _load_state_dict_into_model := λ m sd start_prefix, ret (m, [])
|}.

Definition sharded_disk : world :=
  World HFLlamaDecoderLayer
    {[ "ckpt/pytorch_model.bin.index.json";
       "ckpt/pytorch_model-00001-of-00002.bin";
       "ckpt/pytorch_model-00002-of-00002.bin" ]}
    {[ "ckpt" ]}.

Definition single_file_disk : world :=
  World HFLlamaDecoderLayer {[ "ckpt/pytorch_model.bin" ]} {[ "ckpt" ]}.

End Samples.

(* ===================================================================== *)
(** * Further vocabulary and samples                                      *)
(* ===================================================================== *)

Module Further.
Import Py TeLlama Samples.

(** The source suffixes the rules read. *)
Definition source_suffixes : list string :=
  correspondence_table ≫= λ r, sources (value r).

Global Instance rhs_eq_dec : EqDecision rhs.
Proof. solve_decision. Defined.
Global Instance rule_eq_dec : EqDecision rule.
Proof. solve_decision. Defined.
Global Instance decoder_cls_eq_dec : EqDecision decoder_cls.
Proof. solve_decision. Defined.
Global Instance dtype_eq_dec : EqDecision dtype.
Proof. solve_decision. Defined.
Global Instance call_eq_dec : EqDecision call.
Proof. solve_decision. Defined.
Global Instance world_eq_dec : EqDecision world.
Proof. solve_decision. Defined.
Global Instance process_eq_dec : EqDecision process.
Proof. solve_decision. Defined.
Global Instance model_eq_dec {torch : Torch} : EqDecision model.
Proof. solve_decision. Defined.

(** No rule of any layer prefix of [hf] has its target key in [te]. *)
Definition untargeted {torch : Torch} (hf te : state_dict) : Prop :=
  set_Forall (λ p, Forall (λ r, ¬ applicable te p r) correspondence_table)
             (collect_layer_prefixes hf).

Global Instance untargeted_dec {torch : Torch} hf te : Decision (untargeted hf te).
Proof. unfold untargeted. apply _. Defined.

(** Another iteration order: [elements] backwards. *)
Definition reverse_order : PySet :=
  {| set_iter := λ X, reverse (elements X);
     set_iter_perm := λ X, reverse_Permutation (elements X) |}.

(** [te'] is [te] with every applicable rule of every layer prefix of [hf1]
    and of [hf2] carried out, and nothing else changed. *)
Definition remapped_both {torch : Torch} (hf1 hf2 te te' : state_dict) : Prop :=
  dom te' = dom te ∧
  (∀ p r t, p ∈ collect_layer_prefixes hf1 → r ∈ correspondence_table →
            te !! (p +:+ target r) = Some t →
            ∃ t', assign hf1 p r t = inr t' ∧ te' !! (p +:+ target r) = Some t') ∧
  (∀ p r t, p ∈ collect_layer_prefixes hf2 → r ∈ correspondence_table →
            te !! (p +:+ target r) = Some t →
            ∃ t', assign hf2 p r t = inr t' ∧ te' !! (p +:+ target r) = Some t') ∧
  (∀ k, (∀ p r, p ∈ collect_layer_prefixes hf1 ∪ collect_layer_prefixes hf2 →
                r ∈ correspondence_table → k ≠ p +:+ target r) →
        te' !! k = te !! k).

#[local] Existing Instance int64_vectors.

(** Layer 0 once more, with other values. *)
Definition shard1_again : state_dict :=
  list_to_map (("model.embed_tokens.weight", [8%Z]) :: hf_layer "0" 300).

(** A target dict with the output projection of layers 0 and 1. *)
Definition te_pair : state_dict :=
  {[ "model.layers.0.self_attention.proj.weight" := [0; 0]%Z;
     "model.layers.1.self_attention.proj.weight" := [0; 0]%Z ]}.

(** A target dict with the first two parameters of layer 0. *)
Definition te_norm_query : state_dict :=
  {[ "model.layers.0.self_attention.layernorm_qkv.layer_norm_weight" := [0; 0]%Z;
     "model.layers.0.self_attention.layernorm_qkv.query_weight" := [0; 0]%Z ]}.

(** A one-layer model whose key projection has two elements for the
    checkpoint's one. *)
Definition te_wide : state_dict :=
  <[ "model.layers.0.self_attention.layernorm_qkv.key_weight" := [0; 0]%Z ]> te_one.

(** A one-layer model whose query projection has three elements for the
    checkpoint's two. *)
Definition te_misfit : state_dict :=
  <[ "model.layers.0.self_attention.layernorm_qkv.query_weight" := [0; 0; 0]%Z ]> te_one.


(** Collaborators whose every shard lacks the query projection of layer 0. *)
Definition broken_checkpoint : Transformers := {|
  LlamaConfig := nat;
  WEIGHTS_INDEX_NAME := WEIGHTS_INDEX_NAME (Transformers:=collaborators);
  _add_variant := _add_variant (Transformers:=collaborators);
  os_path_join := os_path_join (Transformers:=collaborators);
  LlamaForCausalLM := LlamaForCausalLM (Transformers:=collaborators);
  module_to := module_to (Transformers:=collaborators);
  get_checkpoint_shard_files := get_checkpoint_shard_files (Transformers:=collaborators);
  load_state_dict := λ shard_file, ret shard_without_q;
  _load_state_dict_into_model := _load_state_dict_into_model (Transformers:=collaborators)
|}.

End Further.
(* ===================================================================== *)
(** * Facts about the embedding                                           *)
(* ===================================================================== *)

Import Regex Py TeLlama.

(** ** The pattern on a few keys *)

Example pattern_compiled :
  layer_prefix_pat =
  [One (Lit "m"); One (Lit "o"); One (Lit "d"); One (Lit "e"); One (Lit "l"); One Dot;
   One (Lit "l"); One (Lit "a"); One (Lit "y"); One (Lit "e"); One (Lit "r");
   One (Lit "s"); One Dot; Plus Digit; One Dot].
Proof. reflexivity. Qed.

Example match_layer_key :
  match_layer_prefix "model.layers.12.self_attn.q_proj.weight" = Some "model.layers.12.".
Proof. reflexivity. Qed.

Example match_embeddings : match_layer_prefix "model.embed_tokens.weight" = None.
Proof. reflexivity. Qed.

Example match_is_anchored : match_layer_prefix "base.model.layers.0.weight" = None.
Proof. reflexivity. Qed.

Example match_needs_digits : match_layer_prefix "model.layers.x.weight" = None.
Proof. reflexivity. Qed.

(** The dots of the pattern are wildcards. *)
Example match_any_separator :
  match_layer_prefix "model_layers_07_weight" = Some "model_layers_07_".
Proof. reflexivity. Qed.

(** At the end of the key the last digit is given back to the final dot. *)
Example match_backtracks : match_layer_prefix "model.layers.12" = Some "model.layers.12".
Proof. reflexivity. Qed.

Example match_one_digit_at_end : match_layer_prefix "model.layers.1" = None.
Proof. reflexivity. Qed.

Example dot_rejects_newline :
  re_match [One Dot] (String newline "") = None ∧ re_match [One Dot] "x" = Some "x".
Proof. split; reflexivity. Qed.

(** ** Strings *)

Lemma app_cons c s t : String c s +:+ t = String c (s +:+ t).
Proof. reflexivity. Qed.
Lemma app_nil_l t : "" +:+ t = t.
Proof. reflexivity. Qed.
Lemma app_assoc' (s t u : string) : (s +:+ t) +:+ u = s +:+ (t +:+ u).
Proof. induction s as [|c s IH]; [done|]. rewrite !app_cons. by f_equal. Qed.

(** ** What the pattern matches *)

Lemma re_match_One a r s p :
  re_match (One a :: r) s = Some p →
  ∃ c s' m, s = String c s' ∧ atom_ok a c = true ∧ re_match r s' = Some m ∧ p = String c m.
Proof.
  destruct s as [|c s']; simpl; [done|].
  destruct (atom_ok a c) eqn:Hc; [|done].
  intros (m & Hm & ->)%fmap_Some. eauto 10.
Qed.

Lemma plus_match_shape a k s p :
  plus_match a k s = Some p →
  ∃ ds rest m, s = ds +:+ rest ∧ ds ≠ "" ∧ all_ok a ds = true ∧ k rest = Some m ∧ p = ds +:+ m.
Proof.
  revert p. induction s as [|c s IH]; intros p; simpl; [done|].
  destruct (atom_ok a c) eqn:Hc; [|done].
  destruct (plus_match a k s) as [m|] eqn:Hm.
  - intros [= <-]. destruct (IH m eq_refl) as (ds & rest & m' & -> & _ & Hds & Hk & ->).
    exists (String c ds), rest, m'. simpl. rewrite Hc, Hds. done.
  - intros (m & Hk & ->)%fmap_Some.
    exists (String c ""), s, m. simpl. rewrite Hc. done.
Qed.

Lemma re_match_Plus a r s : re_match (Plus a :: r) s = plus_match a (re_match r) s.
Proof. reflexivity. Qed.

Lemma match_layer_prefix_shape k p :
  match_layer_prefix k = Some p → valid_prefix p ∧ ∃ rest, k = p +:+ rest.
Proof.
  unfold match_layer_prefix, layer_prefix_pat. intros H.
  repeat (apply re_match_One in H as (? & ? & ? & -> & ?Hc & H & ->)).
  rewrite re_match_Plus in H.
  apply plus_match_shape in H as (ds & rest & m & -> & Hne & Hds & H & ->).
  apply re_match_One in H as (cz & rest' & m' & -> & Hcz & H & ->).
  injection H as <-.
  repeat match goal with
  | Hc : atom_ok (Lit _) _ = true |- _ => apply bool_decide_eq_true in Hc; subst
  end.
  split.
  - eexists _, _, ds, cz. split; [reflexivity | done].
  - exists rest'. rewrite !app_cons. do 13 f_equal. rewrite app_assoc'. done.
Qed.

(** ** Target keys determine their prefix and their rule *)

(** No target suffix starts with a digit, and none is another one with a
    character put in front: so a target key cannot be read under two
    different layer prefixes, although prefixes may differ in length. *)

Lemma target_not_digit t c s :
  t ∈ target_suffixes → t = String c s → is_digit c = false.
Proof.
  intros Ht ->. vm_compute in Ht.
  repeat (apply elem_of_cons in Ht as [Ht|Ht]; [injection Ht as -> _; reflexivity|]).
  by apply elem_of_nil in Ht.
Qed.

Lemma target_not_shift t1 t2 c :
  t1 ∈ target_suffixes → t2 ∈ target_suffixes → t1 ≠ String c t2.
Proof.
  intros H1 H2 E. apply (f_equal String.length) in E. simpl in E.
  revert E.
  apply (Forall_forall (λ t1, String.length t1 ≠ S (String.length t2)) target_suffixes); [|done].
  revert t2 H2. apply Forall_forall. by vm_compute; repeat constructor.
Qed.

Ltac norm_app := repeat (rewrite app_cons || rewrite app_nil_l || rewrite app_assoc').
Ltac norm_app_in H :=
  repeat (rewrite app_cons in H || rewrite app_nil_l in H || rewrite app_assoc' in H).

Lemma digits_tail_inj ds1 ds2 c c' t1 t2 :
  all_ok Digit ds1 = true → all_ok Digit ds2 = true →
  t1 ∈ target_suffixes → t2 ∈ target_suffixes →
  ds1 +:+ String c t1 = ds2 +:+ String c' t2 →
  ds1 = ds2 ∧ c = c' ∧ t1 = t2.
Proof.
  intros H1 H2 Ht1 Ht2. revert ds2 H2.
  induction ds1 as [|d ds1 IH]; intros [|d' ds2] H2 E; norm_app_in E.
  - by injection E as -> ->.
  - injection E as -> E. exfalso. destruct ds2 as [|d2 ds2]; norm_app_in E.
    + by eapply (target_not_shift t1 t2).
    + simpl in H2. apply andb_prop in H2 as [_ [H2 _]%andb_prop].
      rewrite (target_not_digit _ _ _ Ht1 E) in H2. done.
  - injection E as -> E. exfalso. destruct ds1 as [|d1 ds1]; norm_app_in E.
    + by eapply (target_not_shift t2 t1).
    + simpl in H1. apply andb_prop in H1 as [_ [H1 _]%andb_prop].
      rewrite (target_not_digit _ _ _ Ht2 (eq_sym E)) in H1. done.
  - injection E as -> E. simpl in H1, H2.
    apply andb_prop in H1 as [_ H1]. apply andb_prop in H2 as [_ H2].
    destruct (IH H1 _ H2 E) as (-> & -> & ->). done.
Qed.

Lemma target_key_inj p1 p2 t1 t2 :
  valid_prefix p1 → valid_prefix p2 →
  t1 ∈ target_suffixes → t2 ∈ target_suffixes →
  p1 +:+ t1 = p2 +:+ t2 → p1 = p2 ∧ t1 = t2.
Proof.
  intros (a1 & b1 & ds1 & c1 & -> & H1) (a2 & b2 & ds2 & c2 & -> & H2) Ht1 Ht2 E.
  unfold prefix_of in *. norm_app_in E.
  injection E as -> -> E.
  destruct (digits_tail_inj _ _ _ _ _ _ H1 H2 Ht1 Ht2 E) as (-> & -> & ->). done.
Qed.


Lemma succeeds_inr {A} (r : exn + A) : succeeds r ↔ ∃ x, r = inr x.
Proof. destruct r as [e|x]; simpl; split; [done|by intros [??]|by eauto|done]. Qed.

Section embedding.
Context {torch : Torch}.

(** ** Running a list of guarded assignments *)

Lemma run_steps_dom steps (te : state_dict) : dom (run_steps steps te).1 = dom te.
Proof.
  revert te. induction steps as [|[k v] steps IH]; intros te; simpl; [done|].
  destruct (te !! k) as [old|] eqn:Hk; [|by apply IH].
  destruct (store old v) as [e|t]; [done|]. rewrite IH. by apply dom_insert_lookup_L.
Qed.

Lemma run_steps_frame steps (te : state_dict) k :
  k ∉ steps.*1 → (run_steps steps te).1 !! k = te !! k.
Proof.
  revert te. induction steps as [|[k' v] steps IH]; intros te Hk; simpl; [done|].
  rewrite fmap_cons, not_elem_of_cons in Hk. destruct Hk as [Hne Hk].
  destruct (te !! k') as [old|] eqn:Hk'; [|by apply IH].
  destruct (store old v) as [e|t]; [done|]. rewrite IH by done. by rewrite lookup_insert_ne.
Qed.

Lemma run_steps_app a b (te : state_dict) :
  run_steps (a ++ b) te =
  match run_steps a te with
  | (te1, inr _) => run_steps b te1
  | (te1, inl e) => (te1, inl e)
  end.
Proof.
  revert te. induction a as [|[k v] a IH]; intros te; simpl; [done|].
  destruct (te !! k) as [old|]; [|done]. by destruct (store old v).
Qed.

(** The keys of the assignments being distinct, each assignment meets the
    tensor that the dict held at the start. *)
Lemma run_steps_err steps (te te' : state_dict) e :
  NoDup steps.*1 →
  run_steps steps te = (te', inl e) →
  ∃ k v t, (k, v) ∈ steps ∧ te !! k = Some t ∧ store t v = inl e.
Proof.
  revert te. induction steps as [|[k v] steps IH]; intros te Hnd; simpl; [done|].
  rewrite fmap_cons in Hnd. apply NoDup_cons in Hnd as [Hk Hnd].
  destruct (te !! k) as [old|] eqn:Hold.
  - destruct (store old v) as [e'|t'] eqn:Hst.
    + intros [= <- <-]. exists k, v, old. split_and!; [left|done..].
    + intros (k' & v' & t & Hin & Hlook & Hfail)%IH; [|done].
      exists k', v', t. split_and!; [by right| |done].
      rewrite lookup_insert_ne in Hlook; [done|].
      intros ->. apply Hk. by apply (list_elem_of_fmap_2 fst) in Hin.
  - intros (k' & v' & t & Hin & Hlook & Hfail)%IH; [|done].
    exists k', v', t. split_and!; [by right|done..].
Qed.

Lemma run_steps_ok steps (te : state_dict) :
  NoDup steps.*1 →
  (∀ k v t, (k, v) ∈ steps → te !! k = Some t → succeeds (store t v)) →
  ∃ te', run_steps steps te = (te', inr ()).
Proof.
  revert te. induction steps as [|[k v] steps IH]; intros te Hnd H; simpl; [eauto|].
  rewrite fmap_cons in Hnd. apply NoDup_cons in Hnd as [Hk Hnd].
  destruct (te !! k) as [old|] eqn:Hold.
  - assert (succeeds (store old v)) as Hs by (apply (H k v); [left|done]).
    destruct (store old v) as [e|t']; [done|].
    apply IH; [done|]. intros k' v' t Hin Hlook. apply (H k' v'); [by right|].
    rewrite lookup_insert_ne in Hlook; [done|].
    intros ->. apply Hk. by apply (list_elem_of_fmap_2 fst) in Hin.
  - apply IH; [done|]. intros k' v' t Hin Hlook. apply (H k' v'); [by right|done].
Qed.

Lemma run_steps_lookup steps (te te' : state_dict) k v t :
  NoDup steps.*1 →
  run_steps steps te = (te', inr ()) →
  (k, v) ∈ steps → te !! k = Some t →
  ∃ t', store t v = inr t' ∧ te' !! k = Some t'.
Proof.
  revert te. induction steps as [|[k' v'] steps IH]; intros te Hnd Hrun Hin Hlook.
  { by apply elem_of_nil in Hin. }
  rewrite fmap_cons in Hnd. apply NoDup_cons in Hnd as [Hk' Hnd].
  simpl in Hrun. apply elem_of_cons in Hin as [[= <- <-]|Hin].
  - rewrite Hlook in Hrun. destruct (store t v) as [e|t'] eqn:Hst; [done|].
    exists t'. split; [done|].
    pose proof (run_steps_frame steps (<[k:=t']> te) k Hk') as Hf.
    rewrite Hrun in Hf. simpl in Hf. by rewrite Hf, lookup_insert_eq.
  - assert (k ≠ k') as Hne.
    { intros ->. apply Hk'. by apply (list_elem_of_fmap_2 fst) in Hin. }
    destruct (te !! k') as [old|] eqn:Hk2; [|by eapply IH].
    destruct (store old v') as [e|t2]; [done|].
    eapply IH; [done..|]. by rewrite lookup_insert_ne.
Qed.

(** Whether the run ends well or not, an entry is as before or holds what
    one of the assignments made of it. *)
Lemma run_steps_values steps (te : state_dict) k :
  NoDup steps.*1 →
  (run_steps steps te).1 !! k = te !! k ∨
  ∃ v t t', (k, v) ∈ steps ∧ te !! k = Some t ∧ store t v = inr t' ∧
            (run_steps steps te).1 !! k = Some t'.
Proof.
  revert te. induction steps as [|[k0 v0] steps IH]; intros te Hnd; simpl; [by left|].
  rewrite fmap_cons in Hnd. apply NoDup_cons in Hnd as [Hk0 Hnd].
  destruct (te !! k0) as [old|] eqn:Hold.
  - destruct (store old v0) as [e|t0] eqn:Hst; [by left|].
    destruct (decide (k = k0)) as [->|Hne].
    + right. exists v0, old, t0. split_and!; [left|done..|].
      by rewrite run_steps_frame, lookup_insert_eq.
    + destruct (IH (<[k0:=t0]> te) Hnd) as [Heq|(v & t & t' & Hin & Hlook & Hs & Heq)].
      * left. by rewrite Heq, lookup_insert_ne.
      * right. exists v, t, t'. split_and!; [by right| |done..].
        by rewrite lookup_insert_ne in Hlook.
  - destruct (IH te Hnd) as [Heq|(v & t & t' & Hin & Hlook & Hs & Heq)]; [by left|].
    right. exists v, t, t'. split_and!; [by right|done..].
Qed.

(** ** [replace_layer] runs the table top to bottom *)

Lemma stmt_run k (rhsM : M state_dict tensor) v (rest : M state_dict ()) steps te :
  (∀ s, rhsM s = (s, v)) → (∀ s, rest s = run_steps steps s) →
  ((b ← contains k; when_ b (x ← rhsM; setitem_data k x)) ;; rest) te
  = run_steps ((k, v) :: steps) te.
Proof.
  intros Hrhs Hrest. unfold mbind, M_bind, bind, contains, when_, setitem_data. simpl.
  destruct (te !! k) as [old|] eqn:Hk.
  - rewrite bool_decide_eq_true_2 by done. rewrite Hrhs.
    destruct v as [e|t]; [done|]. simpl. rewrite Hk.
    destruct (data_setslice old t); [done|]. apply Hrest.
  - rewrite bool_decide_eq_false_2 by (by intros [??]). apply Hrest.
Qed.

Lemma stmt_run_last k (rhsM : M state_dict tensor) v te :
  (∀ s, rhsM s = (s, v)) →
  (b ← contains k; when_ b (x ← rhsM; setitem_data k x)) te
  = run_steps [(k, v)] te.
Proof.
  intros Hrhs. unfold mbind, M_bind, bind, contains, when_, setitem_data. simpl.
  destruct (te !! k) as [old|] eqn:Hk.
  - rewrite bool_decide_eq_true_2 by done. rewrite Hrhs.
    destruct v as [e|t]; [done|]. simpl. rewrite Hk.
    by destruct (data_setslice old t).
  - by rewrite bool_decide_eq_false_2 by (by intros [??]).
Qed.

Lemma getitem_data_read {S} (hf : state_dict) k (s : S) :
  getitem_data hf k s = (s, read hf k).
Proof.
  unfold getitem_data, mbind, M_bind, bind, getitem, read, lift.
  by destruct (hf !! k).
Qed.

Lemma getitem_copy (hf : state_dict) p src (s : state_dict) :
  getitem_data hf (p +:+ src) s = (s, eval_rhs hf p (Copy src)).
Proof. apply getitem_data_read. Qed.

Lemma getitem_cat (hf : state_dict) p src1 src2 (s : state_dict) :
  (g ← getitem_data hf (p +:+ src1); u ← getitem_data hf (p +:+ src2);
   lift (torch_cat_dim0 g u)) s
  = (s, eval_rhs hf p (Cat src1 src2)).
Proof.
  unfold mbind, M_bind, bind. rewrite getitem_data_read. simpl.
  destruct (read hf (p +:+ src1)) as [e|g]; [done|].
  rewrite getitem_data_read. by destruct (read hf (p +:+ src2)).
Qed.

Lemma replace_layer_run hf p te :
  replace_layer hf p te = run_steps (layer_steps hf p) te.
Proof.
  unfold replace_layer, layer_steps, correspondence_table.
  rewrite !fmap_cons. cbn [target value].
  revert te.
  repeat (intros ?; apply stmt_run; [intros ?; first [apply getitem_copy | apply getitem_cat]|]).
  intros ?. apply stmt_run_last. intros ?. apply getitem_copy.
Qed.

Lemma for_each_cons {S A} (x : A) xs (body : A → M S ()) s :
  for_each (x :: xs) body s =
  match body x s with
  | (s', inr _) => for_each xs body s'
  | (s', inl e) => (s', inl e)
  end.
Proof. reflexivity. Qed.

Lemma for_each_run hf ps te :
  for_each ps (replace_layer hf) te = run_steps (steps_of hf ps) te.
Proof.
  revert te. induction ps as [|p ps IH]; intros te; [done|].
  unfold steps_of. rewrite bind_cons, run_steps_app, for_each_cons, replace_layer_run.
  destruct (run_steps (layer_steps hf p) te) as [te1 [e|[]]]; [done|]. apply IH.
Qed.

Lemma replace_params_run {order : PySet} hf te :
  replace_params hf te =
  match run_steps (steps_of hf (set_iter (collect_layer_prefixes hf))) te with
  | (te', inr _) => (te', inr (collect_layer_prefixes hf))
  | (te', inl e) => (te', inl e)
  end.
Proof.
  unfold replace_params, mbind, M_bind, bind. rewrite for_each_run.
  by destruct (run_steps _ te) as [te' [e|[]]].
Qed.

(** ** The collected prefixes *)

Lemma elem_of_collect hf p :
  p ∈ collect_layer_prefixes hf ↔
  ∃ k, is_Some (hf !! k) ∧ match_layer_prefix k = Some p.
Proof.
  unfold collect_layer_prefixes.
  assert (∀ l (acc : gset string),
    p ∈ foldl (λ acc k, match match_layer_prefix k with
                        | Some g => {[g]} ∪ acc | None => acc end) acc l
    ↔ p ∈ acc ∨ ∃ k, k ∈ l ∧ match_layer_prefix k = Some p) as Hfold.
  { induction l as [|k l IH]; intros acc; simpl.
    - split; [by left|]. intros [?|(k & Hk & _)]; [done|]. by apply elem_of_nil in Hk.
    - rewrite IH. split.
      + intros [Hp|(k' & Hk' & Hm)].
        * destruct (match_layer_prefix k) as [g|] eqn:Hg; [|by left].
          apply elem_of_union in Hp as [->%elem_of_singleton|Hp]; [|by left].
          right. exists k. split; [left|done].
        * right. exists k'. split; [by right|done].
      + intros [Hp|(k' & Hk' & Hm)].
        * left. destruct (match_layer_prefix k); [|done]. apply elem_of_union. by right.
        * apply elem_of_cons in Hk' as [->|Hk'].
          -- left. rewrite Hm. apply elem_of_union. left. by apply elem_of_singleton.
          -- right. eauto. }
  rewrite Hfold. split.
  - intros [Hp|(k & Hk & Hm)]; [by apply not_elem_of_empty in Hp|].
    exists k. split; [|done].
    apply list_elem_of_fmap in Hk as ([k' t] & -> & Hk). simpl.
    apply elem_of_map_to_list in Hk. by rewrite Hk.
  - intros (k & [t Hk] & Hm). right. exists k. split; [|done].
    apply list_elem_of_fmap. exists (k, t). split; [done|]. by apply elem_of_map_to_list.
Qed.

(** ** The assignments of a call *)

Lemma steps_of_elem hf ps k v :
  (k, v) ∈ steps_of hf ps ↔
  ∃ p r, p ∈ ps ∧ r ∈ correspondence_table ∧ k = p +:+ target r ∧ v = eval_rhs hf p (value r).
Proof.
  unfold steps_of, layer_steps. rewrite list_elem_of_bind. split.
  - intros (p & (r & [= -> ->] & Hr)%list_elem_of_fmap & Hp). eauto 10.
  - intros (p & r & Hp & Hr & -> & ->). exists p. split; [|done].
    apply list_elem_of_fmap. eauto.
Qed.

Lemma steps_of_keys hf ps k :
  k ∈ (steps_of hf ps).*1 ↔
  ∃ p r, p ∈ ps ∧ r ∈ correspondence_table ∧ k = p +:+ target r.
Proof.
  rewrite list_elem_of_fmap. split.
  - intros ([k' v] & -> & (p & r & ? & ? & -> & _)%steps_of_elem). eauto.
  - intros (p & r & Hp & Hr & ->). eexists (_, _). split; [|apply steps_of_elem; eauto 10]. done.
Qed.

Lemma targets_nodup : NoDup target_suffixes.
Proof. apply (bool_decide_unpack _). by vm_compute. Qed.

Lemma target_in_suffixes r : r ∈ correspondence_table → target r ∈ target_suffixes.
Proof. intros. by apply list_elem_of_fmap_2. Qed.

Lemma table_target_inj r1 r2 :
  r1 ∈ correspondence_table → r2 ∈ correspondence_table → target r1 = target r2 → r1 = r2.
Proof.
  intros H1 H2. revert r2 H2. revert r1 H1.
  apply (Forall_forall (λ r1, ∀ r2, r2 ∈ correspondence_table → target r1 = target r2 → r1 = r2)).
  unfold correspondence_table. repeat constructor;
    intros r2 H2 E; simpl in E;
    repeat (apply elem_of_cons in H2 as [->|H2]; [first [done | discriminate E]|]);
    by apply elem_of_nil in H2.
Qed.

Lemma steps_nodup hf ps :
  NoDup ps → Forall valid_prefix ps → NoDup (steps_of hf ps).*1.
Proof.
  induction 1 as [|p ps Hp Hnd IH]; intros Hv; [constructor|].
  apply Forall_cons in Hv as [Hvp Hv].
  unfold steps_of. rewrite bind_cons, fmap_app. apply NoDup_app. split_and!.
  - unfold layer_steps. rewrite <-list_fmap_compose.
    apply (NoDup_fmap_2_strong (λ r, p +:+ target r)).
    + intros r1 r2 H1 H2 E. simpl in E. apply String.app_inj in E.
      by apply table_target_inj.
    + apply (NoDup_fmap_1 target). apply targets_nodup.
  - intros k Hk1 Hk2.
    apply list_elem_of_fmap in Hk1 as ([k1 v1] & -> & (r & [= -> ->] & Hr)%list_elem_of_fmap).
    apply steps_of_keys in Hk2 as (p' & r' & Hp' & Hr' & E). simpl in E.
    apply target_key_inj in E as [-> _]; try done; try by apply target_in_suffixes.
    eapply Forall_forall in Hv; done.
  - by apply IH.
Qed.

Lemma collect_valid hf p : p ∈ collect_layer_prefixes hf → valid_prefix p.
Proof. intros (k & _ & [? _]%match_layer_prefix_shape)%elem_of_collect. done. Qed.

(** The target key tells the prefix and the rule. *)
Lemma planned_key_inj hf1 hf2 p1 p2 r1 r2 :
  p1 ∈ collect_layer_prefixes hf1 → p2 ∈ collect_layer_prefixes hf2 →
  r1 ∈ correspondence_table → r2 ∈ correspondence_table →
  p1 +:+ target r1 = p2 +:+ target r2 → p1 = p2 ∧ r1 = r2.
Proof.
  intros Hp1 Hp2 Hr1 Hr2 E.
  apply target_key_inj in E as [-> Ht];
    [| by eapply collect_valid | by eapply collect_valid
     | by apply target_in_suffixes | by apply target_in_suffixes].
  split; [done|]. by apply table_target_inj.
Qed.

Section order.
Context {order : PySet}.

Lemma set_iter_elem X p : p ∈ set_iter X ↔ p ∈ X.
Proof. by rewrite set_iter_perm, elem_of_elements. Qed.

Lemma set_iter_nodup X : NoDup (set_iter X).
Proof. rewrite set_iter_perm. apply NoDup_elements. Qed.

Lemma plan_nodup hf : NoDup (steps_of hf (set_iter (collect_layer_prefixes hf))).*1.
Proof.
  apply steps_nodup; [apply set_iter_nodup|].
  apply Forall_forall. intros p Hp%set_iter_elem. by eapply collect_valid.
Qed.
End order.

(** ** Right-hand sides *)

Lemma read_inr hf k v : read hf k = inr v → hf !! k = Some v.
Proof.
  unfold read. destruct (hf !! k) as [t|]; [|done]. by intros ->%getslice_whole.
Qed.

Lemma eval_rhs_copy hf p src t :
  eval_rhs hf p (Copy src) = inr t → hf !! (p +:+ src) = Some t.
Proof. apply read_inr. Qed.

Lemma eval_rhs_cat hf p src1 src2 c :
  eval_rhs hf p (Cat src1 src2) = inr c →
  ∃ g u, hf !! (p +:+ src1) = Some g ∧ hf !! (p +:+ src2) = Some u ∧
         torch_cat_dim0 g u = inr c.
Proof.
  simpl. destruct (read hf (p +:+ src1)) as [e|g] eqn:Hg; [done|].
  destruct (read hf (p +:+ src2)) as [e|u] eqn:Hu; [done|].
  apply read_inr in Hg, Hu. eauto.
Qed.

Lemma eval_rhs_inr hf p r v :
  eval_rhs hf p (value r) = inr v → has_sources hf p r.
Proof.
  unfold has_sources. destruct (value r) as [src|src1 src2].
  - intros Hv%eval_rhs_copy. repeat constructor. eauto.
  - intros (g & u & Hg & Hu & _)%eval_rhs_cat. repeat constructor; eauto.
Qed.

Lemma assign_inr hf p r t t' :
  assign hf p r t = inr t' →
  ∃ v, eval_rhs hf p (value r) = inr v ∧ data_setslice t v = inr t'.
Proof.
  unfold assign, store. destruct (eval_rhs hf p (value r)) as [e|v]; [done|]. eauto.
Qed.

(** When every source tensor that is found can be sliced, a rule that
    lacks a source key ends in the lookup failure for its first missing
    key. *)
Lemma eval_rhs_missing hf p r :
  Forall (λ src, from_option (λ s, succeeds (data_getslice s)) True (hf !! (p +:+ src)))
         (sources (value r)) →
  ¬ has_sources hf p r →
  ∃ src, src ∈ sources (value r) ∧ hf !! (p +:+ src) = None ∧
         eval_rhs hf p (value r) = inl (KeyError (p +:+ src)).
Proof.
  unfold has_sources. destruct (value r) as [src|src1 src2]; simpl; unfold read.
  - intros _ Hns. destruct (hf !! (p +:+ src)) as [s|] eqn:Hs.
    + destruct Hns. repeat constructor. eauto.
    + exists src. split_and!; [left|done..].
  - intros [H1 _]%Forall_cons Hns.
    destruct (hf !! (p +:+ src1)) as [g|] eqn:Hg.
    + simpl in H1. apply succeeds_inr in H1 as [g' ->].
      destruct (hf !! (p +:+ src2)) as [u|] eqn:Hu.
      * destruct Hns. repeat constructor; eauto.
      * exists src2. split_and!; [right; left|done..].
    + exists src1. split_and!; [left|done..].
Qed.

Lemma eval_rhs_ext hf hf' p v :
  (∀ src, src ∈ sources v → hf' !! (p +:+ src) = hf !! (p +:+ src)) →
  eval_rhs hf' p v = eval_rhs hf p v.
Proof.
  intros Hext. destruct v as [src|src1 src2]; simpl; unfold read.
  - rewrite (Hext src); [done|left].
  - rewrite (Hext src1), (Hext src2); [done|right; left|left].
Qed.

(** The slice assignment keeps the shape and dtype of its target. *)
Lemma store_layout t v t' w : store t v = inr t' → store t' w = store t w.
Proof.
  destruct v as [e|x]; [done|]. simpl. intros Hcopy.
  destruct w as [e|y]; [done|]. simpl. by eapply setslice_layout.
Qed.

(** ** The vocabulary, spelled out *)

Lemma on_targets_spec (P : string → rule → tensor → Prop) hf te :
  on_targets P hf te ↔
  ∀ p r t, p ∈ collect_layer_prefixes hf → r ∈ correspondence_table →
           te !! (p +:+ target r) = Some t → P p r t.
Proof.
  unfold on_targets, set_Forall. split.
  - intros Hall p r t Hp Hr Ht.
    pose proof (proj1 (Forall_forall _ _) (Hall p Hp) r Hr) as HP.
    simpl in HP. by rewrite Ht in HP.
  - intros Hall p Hp. apply Forall_forall. intros r Hr.
    destruct (te !! (p +:+ target r)) as [t|] eqn:Ht; [|done]. simpl. by apply Hall.
Qed.

Lemma sources_available_spec hf te :
  sources_available hf te ↔
  ∀ p r, p ∈ collect_layer_prefixes hf → r ∈ correspondence_table →
         applicable te p r → has_sources hf p r.
Proof.
  unfold sources_available, set_Forall. split.
  - intros Hall p r Hp Hr. exact (proj1 (Forall_forall _ _) (Hall p Hp) r Hr).
  - intros Hall p Hp. apply Forall_forall. intros r Hr. by apply Hall.
Qed.

Lemma complete_source_spec hf :
  complete_source hf ↔
  ∀ p r, p ∈ collect_layer_prefixes hf → r ∈ correspondence_table → has_sources hf p r.
Proof.
  unfold complete_source, set_Forall. split.
  - intros Hall p r Hp Hr. exact (proj1 (Forall_forall _ _) (Hall p Hp) r Hr).
  - intros Hall p Hp. apply Forall_forall. intros r Hr. by apply Hall.
Qed.



Lemma rules_succeed_sources hf te : rules_succeed hf te → sources_available hf te.
Proof.
  intros Hok. apply sources_available_spec. intros p r Hp Hr [t Ht].
  pose proof (proj1 (on_targets_spec _ hf te) Hok p r t Hp Hr Ht) as Hs. simpl in Hs.
  apply succeeds_inr in Hs as [t' (v & Hv & _)%assign_inr]. by eapply eval_rhs_inr.
Qed.

(** With all sources at hand and nothing refused by torch, every applicable
    rule goes through. *)
Lemma fit_rules_succeed hf te :
  sources_available hf te → tensors_fit hf te → rules_succeed hf te.
Proof.
  intros Hav Hfit. apply on_targets_spec. intros p r t Hp Hr Ht.
  destruct (proj1 (on_targets_spec _ hf te) Hfit p r t Hp Hr Ht) as [_ Hgo].
  apply Hgo. apply (proj1 (sources_available_spec hf te) Hav); [done..|]. by exists t.
Qed.


Lemma rules_succeed_weaken hf te te0 :
  (∀ p r t, p ∈ collect_layer_prefixes hf → r ∈ correspondence_table →
            te0 !! (p +:+ target r) = Some t → te !! (p +:+ target r) = Some t) →
  rules_succeed hf te → rules_succeed hf te0.
Proof.
  intros Hsame Hok. apply on_targets_spec. intros p r t Hp Hr Ht.
  apply (proj1 (on_targets_spec _ hf te) Hok p r t Hp Hr). by apply Hsame.
Qed.

(** ** What a call of [replace_params] does *)

Section replace_params_facts.
Context {order : PySet}.

Lemma plan_elem hf k v :
  (k, v) ∈ steps_of hf (set_iter (collect_layer_prefixes hf)) ↔
  ∃ p r, p ∈ collect_layer_prefixes hf ∧ r ∈ correspondence_table ∧
         k = p +:+ target r ∧ v = eval_rhs hf p (value r).
Proof. rewrite steps_of_elem. by setoid_rewrite set_iter_elem. Qed.

Lemma plan_keys hf k :
  k ∈ (steps_of hf (set_iter (collect_layer_prefixes hf))).*1 ↔
  ∃ p r, p ∈ collect_layer_prefixes hf ∧ r ∈ correspondence_table ∧ k = p +:+ target r.
Proof. rewrite steps_of_keys. by setoid_rewrite set_iter_elem. Qed.

(** A call that returns has carried out the remapping. *)
Lemma replace_params_inr hf te te' ps :
  replace_params hf te = (te', inr ps) →
  ps = collect_layer_prefixes hf ∧ remapped hf te te'.
Proof.
  rewrite replace_params_run.
  destruct (run_steps _ te) as [te1 [e|[]]] eqn:Hrun; [done|].
  intros [= <- <-]. split; [done|]. split_and!.
  - pose proof (run_steps_dom (steps_of hf (set_iter (collect_layer_prefixes hf))) te) as Hd.
    by rewrite Hrun in Hd.
  - intros p r t Hp Hr Ht.
    eapply run_steps_lookup; [apply plan_nodup | done | | done].
    apply plan_elem. eauto 10.
  - intros k Hk.
    pose proof (run_steps_frame (steps_of hf (set_iter (collect_layer_prefixes hf))) te k) as Hf.
    rewrite Hrun in Hf. apply Hf.
    intros (p & r & Hp & Hr & ->)%plan_keys. by eapply Hk.
Qed.

(** It returns whenever every applicable rule goes through. *)
Lemma replace_params_ok hf te :
  rules_succeed hf te →
  ∃ te', replace_params hf te = (te', inr (collect_layer_prefixes hf)).
Proof.
  intros Hok. rewrite replace_params_run.
  destruct (run_steps_ok (steps_of hf (set_iter (collect_layer_prefixes hf))) te)
    as [te' ->]; [apply plan_nodup| |eauto].
  intros k v t (p & r & Hp & Hr & -> & ->)%plan_elem Ht.
  by apply (proj1 (on_targets_spec _ hf te) Hok p r t).
Qed.

(** When it raises, the exception is that of an applicable rule. *)
Lemma replace_params_inl hf te te' e :
  replace_params hf te = (te', inl e) →
  dom te' = dom te ∧
  ∃ p r t, p ∈ collect_layer_prefixes hf ∧ r ∈ correspondence_table ∧
           te !! (p +:+ target r) = Some t ∧ assign hf p r t = inl e.
Proof.
  rewrite replace_params_run.
  destruct (run_steps _ te) as [te1 [e1|[]]] eqn:Hrun; [|done].
  intros [= <- <-]. split.
  - pose proof (run_steps_dom (steps_of hf (set_iter (collect_layer_prefixes hf))) te) as Hd.
    by rewrite Hrun in Hd.
  - apply run_steps_err in Hrun as (k & v & t & (p & r & Hp & Hr & -> & ->)%plan_elem & Ht & Hfail);
      [|apply plan_nodup].
    by exists p, r, t.
Qed.

Lemma replace_params_dom hf te : dom (replace_params hf te).1 = dom te.
Proof.
  destruct (replace_params hf te) as [te' [e|ps]] eqn:E; simpl.
  - by apply replace_params_inl in E as [? _].
  - by apply replace_params_inr in E as (_ & ? & _).
Qed.

End replace_params_facts.

Lemma remapped_rules_succeed hf te te' : remapped hf te te' → rules_succeed hf te.
Proof.
  intros (_ & Hw & _). apply on_targets_spec. intros p r t Hp Hr Ht.
  destruct (Hw p r t Hp Hr Ht) as (t' & -> & _). done.
Qed.

(** The remapped dict is determined by the source and the dict before. *)
Lemma remapped_unique hf te te1 te2 :
  remapped hf te te1 → remapped hf te te2 → te1 = te2.
Proof.
  intros (Hd1 & Hw1 & Hf1) (Hd2 & Hw2 & Hf2).
  apply map_eq. intros k.
  destruct (decide (k ∈ (steps_of hf (set_iter (PySet:=elements_order)
                                        (collect_layer_prefixes hf))).*1)) as [Hk|Hk].
  - apply (plan_keys (order:=elements_order)) in Hk as (p & r & Hp & Hr & ->).
    destruct (te !! (p +:+ target r)) as [t|] eqn:Ht.
    + destruct (Hw1 p r t Hp Hr Ht) as (t1 & Ha1 & ->).
      destruct (Hw2 p r t Hp Hr Ht) as (t2 & Ha2 & ->). congruence.
    + apply not_elem_of_dom in Ht.
      transitivity (@None tensor); [|symmetry]; apply not_elem_of_dom; congruence.
  - rewrite Hf1, Hf2; [done|..];
      intros p r Hp Hr ->; apply Hk, (plan_keys (order:=elements_order)); eauto.
Qed.

(** Returning is carrying out the remapping, under every iteration order. *)
Lemma replace_params_remapped {order : PySet} hf te te' :
  replace_params hf te = (te', inr (collect_layer_prefixes hf)) ↔ remapped hf te te'.
Proof.
  split.
  - by intros [_ ?]%replace_params_inr.
  - intros Hrem.
    destruct (replace_params_ok hf te) as [te2 Hrun]; [by eapply remapped_rules_succeed|].
    rewrite Hrun. f_equal.
    apply replace_params_inr in Hrun as [_ Hrem2]. by apply (remapped_unique hf te).
Qed.

(** The order in which the set of prefixes is iterated does not show in the
    result of a call that returns. *)
Lemma replace_params_order_irrelevant (order1 order2 : PySet) hf te te' ps :
  replace_params (order:=order1) hf te = (te', inr ps) →
  replace_params (order:=order2) hf te = (te', inr ps).
Proof.
  intros Hrun. pose proof Hrun as [-> Hrem]%replace_params_inr.
  by apply replace_params_remapped.
Qed.

(** Nor in whether it raises. *)
Lemma replace_params_raises_anyway (order1 order2 : PySet) hf te te' e :
  replace_params (order:=order1) hf te = (te', inl e) →
  ∃ te'' e', replace_params (order:=order2) hf te = (te'', inl e').
Proof.
  intros Hrun.
  destruct (replace_params (order:=order2) hf te) as [te'' [e'|ps]] eqn:Hrun2; [eauto|].
  apply (replace_params_order_irrelevant order2 order1) in Hrun2. congruence.
Qed.

(** ** Shards *)

Lemma collect_union hf1 hf2 :
  collect_layer_prefixes (hf1 ∪ hf2) = collect_layer_prefixes hf1 ∪ collect_layer_prefixes hf2.
Proof.
  apply set_eq. intros p. rewrite elem_of_union, !elem_of_collect. split.
  - intros (k & [Hk|Hk]%lookup_union_is_Some & Hm); [left|right]; eauto.
  - intros [(k & Hk & Hm)|(k & Hk & Hm)]; exists k; (split; [|done]);
      apply lookup_union_is_Some; auto.
Qed.

Lemma eval_rhs_union_l hf1 hf2 p r :
  has_sources hf1 p r → eval_rhs (hf1 ∪ hf2) p (value r) = eval_rhs hf1 p (value r).
Proof.
  intros Hs. apply eval_rhs_ext. intros src Hsrc.
  destruct (proj1 (Forall_forall _ _) Hs src Hsrc) as [t Ht].
  rewrite Ht. by apply lookup_union_Some_l.
Qed.

Lemma eval_rhs_union_r hf1 hf2 p r :
  hf1 ##ₘ hf2 → has_sources hf2 p r →
  eval_rhs (hf1 ∪ hf2) p (value r) = eval_rhs hf2 p (value r).
Proof.
  intros Hdisj Hs. apply eval_rhs_ext. intros src Hsrc.
  destruct (proj1 (Forall_forall _ _) Hs src Hsrc) as [t Ht].
  apply lookup_union_r. destruct (hf1 !! (p +:+ src)) as [t1|] eqn:E; [|done].
  by destruct (proj1 (map_disjoint_spec hf1 hf2) Hdisj _ _ _ E Ht).
Qed.

Lemma has_sources_union hf1 hf2 p r :
  has_sources hf1 p r ∨ has_sources hf2 p r → has_sources (hf1 ∪ hf2) p r.
Proof.
  unfold has_sources. intros [Hs|Hs]; apply Forall_forall; intros src Hsrc;
    apply lookup_union_is_Some; [left|right];
    exact (proj1 (Forall_forall _ _) Hs src Hsrc).
Qed.

(** Two whole-layer pieces never share a layer prefix. *)
Lemma complete_disjoint_prefix hf1 hf2 p :
  hf1 ##ₘ hf2 → complete_source hf1 → complete_source hf2 →
  p ∈ collect_layer_prefixes hf1 → p ∈ collect_layer_prefixes hf2 → False.
Proof.
  intros Hdisj Hc1 Hc2 Hp1 Hp2.
  assert (Rule "self_attention.proj.weight" (Copy "self_attn.o_proj.weight")
            ∈ correspondence_table) as Hr by (unfold correspondence_table; do 4 right; left).
  apply (proj1 (complete_source_spec hf1) Hc1 p _ Hp1) in Hr as H1.
  apply (proj1 (complete_source_spec hf2) Hc2 p _ Hp2) in Hr as H2.
  apply Forall_cons in H1 as [[t1 H1] _]. apply Forall_cons in H2 as [[t2 H2] _].
  exact (proj1 (map_disjoint_spec hf1 hf2) Hdisj _ _ _ H1 H2).
Qed.

Lemma complete_union hf1 hf2 :
  complete_source hf1 → complete_source hf2 → complete_source (hf1 ∪ hf2).
Proof.
  intros Hc1 Hc2. apply complete_source_spec. intros p r Hp Hr.
  rewrite collect_union in Hp. apply has_sources_union.
  apply elem_of_union in Hp as [Hp|Hp]; [left|right].
  - by apply (proj1 (complete_source_spec hf1) Hc1).
  - by apply (proj1 (complete_source_spec hf2) Hc2).
Qed.

(** What the rules of a piece do is what the rules of the whole do under
    the prefixes of that piece. *)
Lemma assign_union_l hf1 hf2 p r t :
  complete_source hf1 → p ∈ collect_layer_prefixes hf1 → r ∈ correspondence_table →
  assign (hf1 ∪ hf2) p r t = assign hf1 p r t.
Proof.
  intros Hc Hp Hr. unfold assign.
  by rewrite eval_rhs_union_l by (by apply (proj1 (complete_source_spec hf1) Hc)).
Qed.

Lemma assign_union_r hf1 hf2 p r t :
  hf1 ##ₘ hf2 → complete_source hf2 →
  p ∈ collect_layer_prefixes hf2 → r ∈ correspondence_table →
  assign (hf1 ∪ hf2) p r t = assign hf2 p r t.
Proof.
  intros Hdisj Hc Hp Hr. unfold assign.
  by rewrite eval_rhs_union_r by (done || by apply (proj1 (complete_source_spec hf2) Hc)).
Qed.

(** A key that is no target under the prefixes of [hf] is left alone. *)
Lemma remapped_frame_prefix hf hf0 te te' p r :
  remapped hf te te' →
  p ∈ collect_layer_prefixes hf0 → p ∉ collect_layer_prefixes hf →
  r ∈ correspondence_table →
  te' !! (p +:+ target r) = te !! (p +:+ target r).
Proof.
  intros (_ & _ & Hf) Hp Hnp Hr. apply Hf. intros p' r' Hp' Hr' E.
  apply (planned_key_inj hf0 hf) in E as [-> _]; done.
Qed.

(** Remapping from one piece and then from the other is remapping from
    their union. *)
Lemma remapped_seq hf1 hf2 te te1 te2 :
  hf1 ##ₘ hf2 → complete_source hf1 → complete_source hf2 →
  remapped hf1 te te1 → remapped hf2 te1 te2 → remapped (hf1 ∪ hf2) te te2.
Proof.
  intros Hdisj Hc1 Hc2 Hrem1 Hrem2.
  pose proof Hrem1 as (Hd1 & Hw1 & Hf1). pose proof Hrem2 as (Hd2 & Hw2 & Hf2).
  split_and!.
  - by rewrite Hd2.
  - intros p r t Hp Hr Ht. rewrite collect_union in Hp.
    destruct (decide (p ∈ collect_layer_prefixes hf1)) as [Hp1|Hp1].
    + rewrite assign_union_l by done.
      destruct (Hw1 p r t Hp1 Hr Ht) as (t' & Ha & Hlook). exists t'. split; [done|].
      rewrite (remapped_frame_prefix hf2 hf1 te1 te2); [done..| |done].
      intros Hp2. by eapply complete_disjoint_prefix.
    + apply elem_of_union in Hp as [Hp|Hp]; [done|].
      rewrite assign_union_r by done.
      apply Hw2; [done..|].
      by rewrite (remapped_frame_prefix hf1 hf2 te te1).
  - intros k Hk. rewrite Hf2, Hf1; [done|..]; intros p r Hp Hr; apply Hk; [|done| |done];
      rewrite collect_union; apply elem_of_union; auto.
Qed.

(** And remapping from the union can be done piece by piece. *)
Lemma remapped_split hf1 hf2 te te' :
  hf1 ##ₘ hf2 → complete_source hf1 → complete_source hf2 →
  remapped (hf1 ∪ hf2) te te' →
  ∃ te1, remapped hf1 te te1 ∧ remapped hf2 te1 te'.
Proof.
  intros Hdisj Hc1 Hc2 Hrem.
  pose proof (remapped_rules_succeed _ _ _ Hrem) as Hok.
  pose proof (proj1 (on_targets_spec _ _ te) Hok) as Hok'. simpl in Hok'.
  destruct (replace_params_ok (order:=elements_order) hf1 te) as [te1 Hrun1].
  { apply on_targets_spec. intros p r t Hp Hr Ht. rewrite <-(assign_union_l hf1 hf2) by done.
    apply Hok'; [|done..]. rewrite collect_union. apply elem_of_union. by left. }
  apply replace_params_inr in Hrun1 as [_ Hrem1].
  destruct (replace_params_ok (order:=elements_order) hf2 te1) as [te2 Hrun2].
  { apply on_targets_spec. intros p r t Hp Hr Ht.
    rewrite <-(assign_union_r hf1 hf2) by done.
    apply Hok'; [rewrite collect_union; apply elem_of_union; by right|done|].
    rewrite <-Ht. symmetry. apply (remapped_frame_prefix hf1 hf2); [done..| |done].
    intros Hp1. by eapply complete_disjoint_prefix. }
  apply replace_params_inr in Hrun2 as [_ Hrem2].
  exists te1. split; [done|].
  assert (te2 = te') as <-; [|done].
  apply (remapped_unique (hf1 ∪ hf2) te); [|done]. by apply (remapped_seq hf1 hf2 te te1).
Qed.

End embedding.

(* ===================================================================== *)
(** * The claims                                                          *)
(* ===================================================================== *)

Section claims.
Context {torch : Torch} {order : PySet}.


(** C2 (partial layers).  A rule is carried out exactly when its target key
    is in the target dict.  Whenever every rule whose target key exists goes
    through, [replace_params] returns, however many rules have no target key:
    each existing target then holds its tensor with the value of its rule
    copied into it, and each absent target key is still absent.  And when
    [replace_params] raises, the exception is that of a rule whose target key
    exists: of evaluating its right-hand side or of copying the value into
    the target tensor.  A rule without target key raises nothing. *)
Theorem replace_params_partial_layers hf te :
  (rules_succeed hf te →
   ∃ te', replace_params hf te = (te', inr (collect_layer_prefixes hf)) ∧
     ∀ p r, p ∈ collect_layer_prefixes hf → r ∈ correspondence_table →
       (applicable te p r →
        ∃ v t t', eval_rhs hf p (value r) = inr v ∧ te !! (p +:+ target r) = Some t ∧
                  data_setslice t v = inr t' ∧ te' !! (p +:+ target r) = Some t') ∧
       (¬ applicable te p r → te' !! (p +:+ target r) = None)) ∧
  (∀ te' e, replace_params hf te = (te', inl e) →
     ∃ p r t, p ∈ collect_layer_prefixes hf ∧ r ∈ correspondence_table ∧
              te !! (p +:+ target r) = Some t ∧
              match eval_rhs hf p (value r) with
              | inr v => data_setslice t v = inl e
              | inl e' => e' = e
              end).
Proof.
  split.
  - intros Hok. destruct (replace_params_ok hf te Hok) as [te' Hrun].
    exists te'. split; [done|].
    apply replace_params_inr in Hrun as (_ & Hd & Hw & _).
    intros p r Hp Hr. split.
    + intros [t Ht]. destruct (Hw p r t Hp Hr Ht) as (t' & (v & Hv & Hcopy)%assign_inr & Hnew).
      by exists v, t, t'.
    + intros Hna. apply not_elem_of_dom. rewrite Hd. by rewrite elem_of_dom.
  - intros te' e (_ & p & r & t & Hp & Hr & Ht & Hfail)%replace_params_inl.
    exists p, r, t. split_and!; [done..|].
    unfold assign, store in Hfail. destruct (eval_rhs hf p (value r)); [congruence|done].
Qed.

(** C3 (the returned set), as the code has it.  [replace_params] returns
    whenever every applicable rule goes through, and what it returns is the
    set of layer prefixes matched among the keys of the source dict.  Every
    layer prefix under which a parameter of the target dict has changed is in
    that set; the set is not cut down to those prefixes. *)
Theorem replace_params_returns_source_prefixes hf te :
  (rules_succeed hf te →
   ∃ te', replace_params hf te = (te', inr (collect_layer_prefixes hf))) ∧
  (∀ te' ps, replace_params hf te = (te', inr ps) →
     (∀ p, p ∈ ps ↔ ∃ k, is_Some (hf !! k) ∧ match_layer_prefix k = Some p) ∧
     (∀ p, valid_prefix p → changed_under te te' p → p ∈ ps)).
Proof.
  split; [apply replace_params_ok|].
  intros te' ps (-> & _ & _ & Hf)%replace_params_inr. split.
  - intros p. apply elem_of_collect.
  - intros p Hvalid (r & Hr & Hne)%Exists_exists.
    destruct (decide (p ∈ collect_layer_prefixes hf)) as [|Hnp]; [done|].
    destruct Hne. apply Hf. intros p' r' Hp' Hr' E.
    apply target_key_inj in E as [-> _];
      [done|done|by eapply collect_valid|by apply target_in_suffixes..].
Qed.

(** C5 (idempotence).  After a call of [replace_params] that returned, a
    second call with the same source dict returns the same set and leaves the
    target dict as the first call left it. *)
Theorem replace_params_idempotent hf te te1 ps :
  replace_params hf te = (te1, inr ps) →
  replace_params hf te1 = (te1, inr ps).
Proof.
  intros (-> & Hd & Hw & Hf)%replace_params_inr.
  apply replace_params_remapped. split_and!; [done| |done].
  intros p r t1 Hp Hr Ht1.
  assert (is_Some (te !! (p +:+ target r))) as [t Ht].
  { apply elem_of_dom. rewrite <-Hd. by apply elem_of_dom. }
  destruct (Hw p r t Hp Hr Ht) as (t' & Ha & Hnew).
  assert (t1 = t') as -> by congruence.
  exists t'. split; [|done].
  unfold assign in *. by rewrite (store_layout t _ t' _ Ha).
Qed.

(** C8 (missing source key).  When, for a layer prefix found in the source
    dict, a rule's target key is in the target dict but a source key the rule
    reads is not in the source dict, [replace_params] raises, and no target
    key is added or removed on the way.  Nothing checks for the key: unless
    torch refuses a tensor of a rule first, what is raised is the [KeyError] of
    the lookup, for a key that the source dict lacks and that an applicable
    rule reads. *)
Theorem replace_params_missing_source hf te p r :
  p ∈ collect_layer_prefixes hf → r ∈ correspondence_table →
  applicable te p r → ¬ has_sources hf p r →
  ∃ te' e, replace_params hf te = (te', inl e) ∧
           dom te' = dom te ∧
           (tensors_fit hf te →
            ∃ k, e = KeyError k ∧ hf !! k = None ∧
                 ∃ p' r' src, p' ∈ collect_layer_prefixes hf ∧ r' ∈ correspondence_table ∧
                              applicable te p' r' ∧ src ∈ sources (value r') ∧
                              k = p' +:+ src).
Proof.
  intros Hp Hr Ha Hns.
  destruct (replace_params hf te) as [te' [e|ps]] eqn:Hrun.
  - apply replace_params_inl in Hrun as (Hd & p' & r' & t & Hp' & Hr' & Ht & Hfail).
    exists te', e. split_and!; [done..|]. intros Hfit.
    destruct (proj1 (on_targets_spec _ hf te) Hfit p' r' t Hp' Hr' Ht) as [Hread Hgo].
    destruct (eval_rhs_missing hf p' r' Hread) as (src & Hsrc & Hnone & Hv).
    { intros Hs. apply Hgo in Hs. by rewrite Hfail in Hs. }
    unfold assign in Hfail. rewrite Hv in Hfail. injection Hfail as <-.
    exists (p' +:+ src). split_and!; [done..|].
    exists p', r', src. split_and!; [done..| |done|done]. by exists t.
  - apply replace_params_inr in Hrun as (_ & Hrem). destruct Hns.
    apply remapped_rules_succeed, rules_succeed_sources in Hrem.
    by apply (proj1 (sources_available_spec hf te) Hrem).
Qed.

(** C9 (no new keys).  Whether it returns or raises, [replace_params] leaves
    the target dict with exactly the keys it had; a key whose value differs
    afterwards was in the target dict before and is the target key of a rule
    under a layer prefix of the source dict. *)
Theorem replace_params_keeps_keys hf te :
  dom (replace_params hf te).1 = dom te ∧
  ∀ k, (replace_params hf te).1 !! k ≠ te !! k →
       is_Some (te !! k) ∧
       ∃ p r, p ∈ collect_layer_prefixes hf ∧ r ∈ correspondence_table ∧
              k = p +:+ target r.
Proof.
  split; [apply replace_params_dom|]. intros k Hk. split.
  - destruct (te !! k) as [old|] eqn:Hold; [by eexists|]. destruct Hk.
    apply not_elem_of_dom. rewrite replace_params_dom. by apply not_elem_of_dom.
  - destruct (decide (k ∈ (steps_of hf (set_iter (collect_layer_prefixes hf))).*1))
      as [Hin|Hnin]; [by apply plan_keys|].
    destruct Hk. rewrite replace_params_run.
    pose proof (run_steps_frame _ te k Hnin) as Hf.
    by destruct (run_steps _ te) as [te' [e|[]]].
Qed.

(** C10 (non-layer keys).  When no key of the source dict matches
    [layer_prefix_pat] at its start, [replace_params] returns the empty set
    and the target dict is as it was. *)
Theorem replace_params_no_layer_keys hf te :
  map_Forall (λ k _, match_layer_prefix k = None) hf →
  replace_params hf te = (te, inr ∅).
Proof.
  intros Hnone.
  assert (collect_layer_prefixes hf = ∅) as Hempty.
  { apply set_eq. intros p. split; [|by intros ?%not_elem_of_empty].
    intros (k & [t Hk] & Hm)%elem_of_collect.
    rewrite (Hnone k t Hk) in Hm. done. }
  rewrite replace_params_run, Hempty.
  assert (set_iter ∅ = []) as ->; [|done].
  apply Permutation_nil_r. by rewrite set_iter_perm, elements_empty.
Qed.

(** C4 (shard independence).  Let a source dict be cut into two disjoint
    pieces, each holding every expected source key of each layer prefix found
    in it (so no layer is cut in two, and the whole has all its expected
    keys).  Then running [replace_params] on the two pieces one after the
    other, in either order, is running it once on the whole: the call on the
    whole returns, leaving the target dict in some state, exactly when the two
    calls on the pieces return and leave it in that state.  The call on the
    whole does return when every applicable rule goes through. *)
Theorem replace_params_two_shards hf1 hf2 te :
  hf1 ##ₘ hf2 → complete_source hf1 → complete_source hf2 →
  (rules_succeed (hf1 ∪ hf2) te →
   ∃ te', replace_params (hf1 ∪ hf2) te = (te', inr (collect_layer_prefixes (hf1 ∪ hf2)))) ∧
  ∀ te',
    (replace_params (hf1 ∪ hf2) te = (te', inr (collect_layer_prefixes (hf1 ∪ hf2))) ↔
     ∃ te1, replace_params hf1 te = (te1, inr (collect_layer_prefixes hf1)) ∧
            replace_params hf2 te1 = (te', inr (collect_layer_prefixes hf2))) ∧
    (replace_params (hf1 ∪ hf2) te = (te', inr (collect_layer_prefixes (hf1 ∪ hf2))) ↔
     ∃ te2, replace_params hf2 te = (te2, inr (collect_layer_prefixes hf2)) ∧
            replace_params hf1 te2 = (te', inr (collect_layer_prefixes hf1))).
Proof.
  intros Hdisj Hc1 Hc2. split; [apply replace_params_ok|].
  intros te'. setoid_rewrite replace_params_remapped. split; split.
  - by apply remapped_split.
  - intros (te1 & H1 & H2). by apply (remapped_seq hf1 hf2 te te1).
  - rewrite (map_union_comm hf1 hf2) by done. by apply remapped_split.
  - intros (te2 & H2 & H1). rewrite (map_union_comm hf1 hf2) by done.
    by apply (remapped_seq hf2 hf1 te te2).
Qed.

End claims.

(* ===================================================================== *)
(** * Model construction and checkpoint loading                           *)
(* ===================================================================== *)

Section loading.
Context {torch : Torch} {tf : Transformers} {order : PySet}.

Lemma extern_calls {A} c (f : M world A) p p' r :
  extern c f p = (p', r) → calls p' = calls p ++ [c] ∧ (globals p', r) = f (globals p).
Proof. unfold extern. destruct (f (globals p)) as [w r']. by intros [= <- <-]. Qed.

Lemma replace_params_in_model_calls sd m p p' r :
  replace_params_in_model sd m p = (p', r) → p' = p.
Proof.
  unfold replace_params_in_model.
  destruct (replace_params sd (parameters m)) as [te [e|ps]]; by intros [= <- _].
Qed.

(** The shard loop loads the shards in order, and stops only at an
    exception. *)
Lemma load_shards_calls shards m msgs p p' out :
  load_shards shards m msgs p = (p', out) →
  ∃ made, calls p' = calls p ++ made ∧ made `prefix_of` shard_calls shards ∧
          (∀ x, out = inr x → made = shard_calls shards) ∧
          (∀ f rest, shards = f :: rest → ∃ more, made = CallLoadStateDict f :: more).
Proof.
  revert m msgs p. induction shards as [|f rest IH]; intros m msgs p; simpl.
  - intros [= <- <-]. exists []. rewrite app_nil_r. split_and!; [done..|]. by intros ??.
  - unfold mbind, M_bind, bind.
    destruct (extern (CallLoadStateDict f) (load_state_dict f) p) as [p1 r1] eqn:E1.
    apply extern_calls in E1 as [Hc1 _].
    destruct r1 as [e|sd].
    { intros [= <- <-]. exists [CallLoadStateDict f]. split_and!; [done| |by intros ?|].
      - by exists (CallLoadStateDictIntoModel :: shard_calls rest).
      - intros ?? [= <- <-]. by exists []. }
    destruct (replace_params_in_model sd m p1) as [p2 r2] eqn:E2.
    apply replace_params_in_model_calls in E2 as ->.
    destruct r2 as [e|[m' replaced_layers]].
    { intros [= <- <-]. exists [CallLoadStateDict f]. split_and!; [done| |by intros ?|].
      - by exists (CallLoadStateDictIntoModel :: shard_calls rest).
      - intros ?? [= <- <-]. by exists []. }
    destruct (extern CallLoadStateDictIntoModel (_load_state_dict_into_model m' sd "") p1)
      as [p3 r3] eqn:E3.
    apply extern_calls in E3 as [Hc3 _].
    destruct r3 as [e|[m'' msgs']].
    { intros [= <- <-]. exists [CallLoadStateDict f; CallLoadStateDictIntoModel].
      split_and!; [by rewrite Hc3, Hc1, <-app_assoc| |by intros ?|].
      - by exists (shard_calls rest).
      - intros ?? [= <- <-]. by eexists. }
    intros (made & Hc & Hpre & Hall & _)%IH.
    exists (CallLoadStateDict f :: CallLoadStateDictIntoModel :: made). split_and!.
    + by rewrite Hc, Hc3, Hc1, <-!app_assoc.
    + by do 2 apply prefix_cons.
    + intros x Hok. by rewrite (Hall x Hok).
    + intros ?? [= <- <-]. by eexists.
Qed.

Lemma new_run config p :
  TELlamaForCausalLM_new config p =
  match LlamaForCausalLM config
          (World TELlamaDecoderLayer (files (globals p)) (dirs (globals p))) with
  | (w, r) => (Process (World (LlamaDecoderLayer (globals p)) (files w) (dirs w))
                       (calls p ++ [CallLlamaForCausalLM]), r)
  end.
Proof.
  unfold TELlamaForCausalLM_new, replace_decoder,
    mbind, M_bind, bind, try_finally, get_LlamaDecoderLayer, set_LlamaDecoderLayer,
    modify, mret, M_ret, ret, extern.
  simpl. destruct (LlamaForCausalLM config _) as [w r]. by destruct r.
Qed.

Lemma build_vanilla_model_calls config kwargs p p1 m :
  build_vanilla_model config kwargs p = (p1, inr m) →
  ∃ torch_dtype, kwargs !! "torch_dtype" = Some torch_dtype ∧
                 calls p1 = calls p ++ [CallLlamaForCausalLM; CallTo torch_dtype].
Proof.
  unfold build_vanilla_model, mbind, M_bind, bind. rewrite new_run.
  destruct (LlamaForCausalLM config _) as [w [e|m0]]; [done|].
  unfold getitem. destruct (kwargs !! "torch_dtype") as [dt|]; [|done].
  unfold ret. destruct (extern (CallTo dt) (module_to m0 dt) _) as [p2 r2] eqn:E2.
  apply extern_calls in E2 as [Hc2 _]. simpl in Hc2.
  intros [= <- ->]. exists dt. split; [done|]. by rewrite Hc2, <-app_assoc.
Qed.

(** C6 (scoped substitution).  [TELlamaForCausalLM(config)] runs the model
    constructor once, with [TELlamaDecoderLayer] in the class slot; whatever
    the constructor does, return a model or raise, and even if it writes the
    slot itself, the call ends with that same outcome and with the slot
    holding the class it held before the call. *)
Theorem new_restores_decoder_layer config p :
  ∃ w r,
    LlamaForCausalLM config
      (World TELlamaDecoderLayer (files (globals p)) (dirs (globals p))) = (w, r) ∧
    TELlamaForCausalLM_new config p =
      (Process (World (LlamaDecoderLayer (globals p)) (files w) (dirs w))
               (calls p ++ [CallLlamaForCausalLM]), r) ∧
    LlamaDecoderLayer (globals (TELlamaForCausalLM_new config p).1)
      = LlamaDecoderLayer (globals p).
Proof.
  rewrite new_run. destruct (LlamaForCausalLM config _) as [w r]. by exists w, r.
Qed.

(** C7 (sharded checkpoints only).  Once the model is built and cast, with
    the index file missing [from_pretrained_local] raises [AssertionError]
    having made no further call: the only calls are the constructor and the
    cast, none resolves or loads a shard.  With the index file present the next
    call resolves the shard files; if that raises, the exception propagates,
    and otherwise the shards are loaded in the order resolved, the first one in
    any case and all of them unless a load or a remapping raises. *)
Theorem from_pretrained_local_requires_index path config kwargs p p1 vanilla_model :
  build_vanilla_model config kwargs p = (p1, inr vanilla_model) →
  let index := os_path_join path "" (_add_variant WEIGHTS_INDEX_NAME None) in
  (index ∉ files (globals p1) →
     from_pretrained_local path config kwargs p
       = (p1, inl (AssertionError unsupported_msg)) ∧
     ∃ torch_dtype, calls p1 = calls p ++ [CallLlamaForCausalLM; CallTo torch_dtype]) ∧
  (index ∈ files (globals p1) →
     ∃ p' out later,
       from_pretrained_local path config kwargs p = (p', out) ∧
       calls p' = calls p1 ++ CallGetCheckpointShardFiles path index :: later ∧
       match get_checkpoint_shard_files path index (globals p1) with
       | (_, inl e) => out = inl e ∧ later = []
       | (_, inr (shards, _)) =>
           later `prefix_of` shard_calls shards ∧
           (∀ x, out = inr x → later = shard_calls shards) ∧
           (∀ f rest, shards = f :: rest → ∃ more, later = CallLoadStateDict f :: more)
       end).
Proof.
  intros Hbuild index. split.
  - intros Habsent. split; [|by apply build_vanilla_model_calls in Hbuild as (dt & _ & ?); eauto].
    unfold from_pretrained_local, mbind, M_bind, bind. rewrite Hbuild.
    unfold os_path_isdir, os_path_isfile. fold index.
    by rewrite bool_decide_eq_false_2.
  - intros Hpresent.
    unfold from_pretrained_local, mbind, M_bind, bind. rewrite Hbuild.
    unfold os_path_isdir, os_path_isfile. fold index.
    rewrite bool_decide_eq_true_2 by done. unfold mret, M_ret, ret.
    unfold extern at 1.
    destruct (get_checkpoint_shard_files path index (globals p1)) as [w [e|[shards meta]]].
    + eexists _, _, []. by split_and!.
    + destruct (load_shards shards vanilla_model [] _) as [p2 out] eqn:Hload.
      apply load_shards_calls in Hload as (made & Hc & Hpre & Hall & Hfirst). simpl in Hc.
      exists p2. destruct out as [e|[m msgs]].
      * eexists _, made. split_and!; [done| |done|by intros ?|done].
        by rewrite Hc, <-app_assoc.
      * eexists _, made. split_and!; [done| |done|by intros ? _; eapply Hall|done].
        by rewrite Hc, <-app_assoc.
Qed.

End loading.

(* ===================================================================== *)
(** * The theorems at work on the sample checkpoints                      *)
(* ===================================================================== *)

Section samples_at_work.
Import Samples.
Local Existing Instance int64_vectors.

(** Closed decidable facts are settled by evaluation. *)
Local Ltac by_compute := apply (bool_decide_unpack _); vm_compute; exact I.


(** A one-layer model fed a checkpoint that also has a stray key of layer 1:
    layer 0 is remapped, nothing of layer 1 is looked up or created. *)
Lemma replace_params_partial_layers_witness :
  rules_succeed partial_ckpt te_one ∧ ¬ complete_source partial_ckpt ∧
  ∃ te', replace_params (order:=elements_order) partial_ckpt te_one
           = (te', inr (collect_layer_prefixes partial_ckpt)) ∧
         "model.layers.1." ∈ collect_layer_prefixes partial_ckpt ∧
         te' !! "model.layers.0.layernorm_mlp.fc2_weight" = Some [116%Z] ∧
         te' !! "model.layers.1.layernorm_mlp.fc2_weight" = None.
Proof.
  assert (rules_succeed partial_ckpt te_one) as Hok by by_compute.
  split; [exact Hok|]. split; [by_compute|].
  destruct (replace_params_partial_layers (order:=elements_order) partial_ckpt te_one)
    as [Hreturns _].
  destruct (Hreturns Hok) as (te' & Hrun & Hpost).
  exists te'. split; [exact Hrun|]. split; [by_compute|]. split.
  - destruct (Hpost "model.layers.0."
                (Rule "layernorm_mlp.fc2_weight" (Copy "mlp.down_proj.weight")))
      as [Hyes _]; [by_compute|do 7 right; left|].
    destruct Hyes as (v & t & t' & Hv & Ht & Hcopy & Hlook); [by_compute|].
    vm_compute in Hv. injection Hv as <-.
    vm_compute in Ht. injection Ht as <-.
    vm_compute in Hcopy. injection Hcopy as <-. exact Hlook.
  - destruct (Hpost "model.layers.1."
                (Rule "layernorm_mlp.fc2_weight" (Copy "mlp.down_proj.weight")))
      as [_ Hno]; [by_compute|do 7 right; left|].
    apply Hno. by_compute.
Defined.

(** The returned set is not the set of layers written to: with the
    two-layer checkpoint and the one-layer model of the same sizes the call
    returns both layer prefixes, although the target dict has no parameter of
    layer 1, before or after; only parameters of layer 0 are overwritten. *)
Lemma returned_set_exceeds_touched_set :
  let run := replace_params (order:=elements_order) ckpt te_one in
  run.2 = inr ({[ "model.layers.0."; "model.layers.1." ]} : gset string) ∧
  changed_under te_one run.1 "model.layers.0." ∧
  ¬ changed_under te_one run.1 "model.layers.1." ∧
  Forall (λ r, te_one !! ("model.layers.1." +:+ target r) = None ∧
               run.1 !! ("model.layers.1." +:+ target r) = None) correspondence_table.
Proof. intros run. split_and!; by_compute. Qed.

Lemma replace_params_returns_source_prefixes_witness :
  rules_succeed ckpt te_one ∧
  ∃ te', replace_params (order:=elements_order) ckpt te_one
           = (te', inr (collect_layer_prefixes ckpt)) ∧
         "model.layers.0." ∈ collect_layer_prefixes ckpt ∧
         "model.layers.1." ∈ collect_layer_prefixes ckpt.
Proof.
  assert (rules_succeed ckpt te_one) as Hok by by_compute.
  split; [exact Hok|].
  destruct (replace_params_returns_source_prefixes (order:=elements_order) ckpt te_one)
    as [Hreturns Hret].
  destruct (Hreturns Hok) as [te' Hrun]. exists te'. split; [exact Hrun|].
  destruct (Hret te' _ Hrun) as [Hmem Htouched]. split.
  - apply Htouched.
    + exists "."%char, "."%char, "0", "."%char. split; reflexivity.
    + assert (te' = (replace_params (order:=elements_order) ckpt te_one).1) as ->
        by (rewrite Hrun; reflexivity).
      by_compute.
  - apply Hmem. exists "model.layers.1.mlp.up_proj.weight".
    split; [eexists|]; vm_compute; reflexivity.
Defined.

(** The two shards, one after the other or as one checkpoint. *)
Lemma replace_params_two_shards_witness :
  shard1 ##ₘ shard2 ∧ complete_source shard1 ∧ complete_source shard2 ∧
  rules_succeed ckpt te_two ∧
  ∃ te1 te2 te',
    replace_params (order:=elements_order) shard1 te_two
      = (te1, inr (collect_layer_prefixes shard1)) ∧
    replace_params (order:=elements_order) shard2 te1
      = (te', inr (collect_layer_prefixes shard2)) ∧
    replace_params (order:=elements_order) shard2 te_two
      = (te2, inr (collect_layer_prefixes shard2)) ∧
    replace_params (order:=elements_order) shard1 te2
      = (te', inr (collect_layer_prefixes shard1)) ∧
    replace_params (order:=elements_order) ckpt te_two
      = (te', inr (collect_layer_prefixes ckpt)) ∧
    te' !! "model.layers.0.self_attention.proj.weight" = Some [107; 108]%Z ∧
    te' !! "model.layers.1.self_attention.proj.weight" = Some [207; 208]%Z.
Proof.
  assert (shard1 ##ₘ shard2) as Hd by by_compute.
  assert (complete_source shard1) as H1 by by_compute.
  assert (complete_source shard2) as H2 by by_compute.
  assert (rules_succeed ckpt te_two) as Hok by by_compute.
  split; [exact Hd|]. split; [exact H1|]. split; [exact H2|]. split; [exact Hok|].
  destruct (replace_params_two_shards (order:=elements_order) shard1 shard2 te_two Hd H1 H2)
    as [Hreturns Hsame].
  destruct (Hreturns Hok) as [te' Hwhole].
  destruct (Hsame te') as [[Hone_two _] [Htwo_one _]].
  destruct (Hone_two Hwhole) as (te1 & Ha & Hb).
  destruct (Htwo_one Hwhole) as (te2 & Hc & He).
  exists te1, te2, te'. split_and!; [exact Ha|exact Hb|exact Hc|exact He|exact Hwhole|..].
  - assert (te' = (replace_params (order:=elements_order) ckpt te_two).1) as ->
      by (unfold ckpt; rewrite Hwhole; reflexivity).
    vm_compute. reflexivity.
  - assert (te' = (replace_params (order:=elements_order) ckpt te_two).1) as ->
      by (unfold ckpt; rewrite Hwhole; reflexivity).
    vm_compute. reflexivity.
Defined.

Lemma replace_params_idempotent_witness :
  let te1 : state_dict :=
    {[ "model.layers.0.self_attention.proj.weight" := [107; 108]%Z ]} in
  replace_params (order:=elements_order) shard1 te_small = (te1, inr {[ "model.layers.0." ]}) ∧
  replace_params (order:=elements_order) shard1 te1 = (te1, inr {[ "model.layers.0." ]}).
Proof.
  intros te1.
  assert (replace_params (order:=elements_order) shard1 te_small
          = (te1, inr {[ "model.layers.0." ]})) as Hrun
    by by_compute.
  split; [exact Hrun|].
  exact (replace_params_idempotent (order:=elements_order) shard1 te_small te1 _ Hrun).
Defined.

(** Layer 0 without its query projection: the layer norm is already
    overwritten when the lookup of the query projection fails. *)
Lemma replace_params_missing_source_witness :
  let r := Rule "self_attention.layernorm_qkv.query_weight" (Copy "self_attn.q_proj.weight") in
  let run := replace_params (order:=elements_order) shard_without_q te_one in
  applicable te_one "model.layers.0." r ∧ ¬ has_sources shard_without_q "model.layers.0." r ∧
  tensors_fit shard_without_q te_one ∧
  (∃ te' k, run = (te', inl (KeyError k)) ∧
            shard_without_q !! k = None ∧ dom te' = dom te_one) ∧
  run.2 = inl (KeyError "model.layers.0.self_attn.q_proj.weight") ∧
  run.1 !! "model.layers.0.self_attention.layernorm_qkv.layer_norm_weight"
    = Some [101; 102]%Z ∧
  te_one !! "model.layers.0.self_attention.layernorm_qkv.layer_norm_weight"
    = Some [0; 0]%Z.
Proof.
  intros r run.
  assert (applicable te_one "model.layers.0." r) as Ha by by_compute.
  assert (¬ has_sources shard_without_q "model.layers.0." r) as Hn by by_compute.
  assert (tensors_fit shard_without_q te_one) as Hfit by by_compute.
  split; [exact Ha|]. split; [exact Hn|]. split; [exact Hfit|].
  split; [|split_and!; vm_compute; reflexivity].
  destruct (replace_params_missing_source (order:=elements_order)
              shard_without_q te_one "model.layers.0." r)
    as (te' & e & Hrun & Hdom & Hkey);
    [by_compute | do 1 right; left | exact Ha | exact Hn |].
  destruct (Hkey Hfit) as (k & -> & Hk & _).
  exists te', k. split; [exact Hrun|]. split; [exact Hk|exact Hdom].
Defined.

Lemma replace_params_no_layer_keys_witness :
  map_Forall (λ k _, match_layer_prefix k = None) embeddings_only ∧
  replace_params (order:=elements_order) embeddings_only te_two = (te_two, inr ∅).
Proof.
  assert (map_Forall (λ k _, match_layer_prefix k = None) embeddings_only) as Hn
    by by_compute.
  split; [exact Hn|].
  exact (replace_params_no_layer_keys (order:=elements_order) embeddings_only te_two Hn).
Defined.

(** Loading from a directory with only a single-file checkpoint, and from
    one with the sharded checkpoint. *)
Lemma from_pretrained_local_requires_index_witness :
  let kwargs : gmap string dtype := {[ "torch_dtype" := bfloat16 ]} in
  let built := [CallLlamaForCausalLM; CallTo bfloat16] in
  let m := Model TELlamaDecoderLayer te_two in
  from_pretrained_local (tf:=collaborators) (order:=elements_order)
    "ckpt" 2 kwargs (Process single_file_disk [])
    = (Process single_file_disk built, inl (AssertionError unsupported_msg)) ∧
  ∃ p' out later,
    from_pretrained_local (tf:=collaborators) (order:=elements_order)
      "ckpt" 2 kwargs (Process sharded_disk []) = (p', out) ∧
    calls p' = built ++ CallGetCheckpointShardFiles "ckpt" "ckpt/pytorch_model.bin.index.json"
                        :: later ∧
    ∃ more, later = CallLoadStateDict "ckpt/pytorch_model-00001-of-00002.bin" :: more.
Proof.
  intros kwargs built m. split.
  - destruct (from_pretrained_local_requires_index (tf:=collaborators) (order:=elements_order)
                "ckpt" 2 kwargs (Process single_file_disk [])
                (Process single_file_disk built) m) as [Habsent _];
      [by_compute|].
    destruct Habsent as [Hrun _]; [by_compute|]. exact Hrun.
  - destruct (from_pretrained_local_requires_index (tf:=collaborators) (order:=elements_order)
                "ckpt" 2 kwargs (Process sharded_disk [])
                (Process sharded_disk built) m) as [_ Hpresent];
      [by_compute|].
    destruct Hpresent as (p' & out & later & Hrun & Hcalls & Hshards); [by_compute|].
    exists p', out, later. split; [exact Hrun|]. split; [exact Hcalls|].
    destruct Hshards as (_ & _ & Hfirst). by eapply Hfirst.
Defined.

End samples_at_work.
(* ===================================================================== *)
(** * Further properties of the code                                      *)
(* ===================================================================== *)

Import Further.

(** ** The layer-prefix pattern *)

Lemma plus_match_digits k ds c rest m :
  all_ok Digit ds = true → ds ≠ "" → is_digit c = false →
  k (String c rest) = Some m →
  plus_match Digit k (ds +:+ String c rest) = Some (ds +:+ m).
Proof.
  intros Hds Hne Hc Hk. induction ds as [|d ds IH]; [done|].
  simpl in Hds. apply andb_prop in Hds as [Hd Hds].
  rewrite !app_cons. simpl. rewrite Hd.
  destruct ds as [|d' ds].
  - rewrite !app_nil_l. simpl. rewrite Hc, Hk. done.
  - rewrite IH by done. done.
Qed.

Lemma re_match_lit (c : ascii) r s :
  re_match (One (Lit c) :: r) (String c s) = String c <$> re_match r s.
Proof. simpl. by rewrite bool_decide_eq_true_2. Qed.

Lemma re_match_dot (c : ascii) r s :
  atom_ok Dot c = true →
  re_match (One Dot :: r) (String c s) = String c <$> re_match r s.
Proof. intros Hc. cbn [re_match]. by rewrite Hc. Qed.

Lemma match_prefix_of c1 c2 ds c3 rest :
  atom_ok Dot c1 = true → atom_ok Dot c2 = true →
  ds ≠ "" → all_ok Digit ds = true →
  atom_ok Dot c3 = true → is_digit c3 = false →
  match_layer_prefix (prefix_of c1 c2 ds c3 +:+ rest) = Some (prefix_of c1 c2 ds c3).
Proof.
  intros H1 H2 Hne Hds H3 Hnd.
  unfold match_layer_prefix, layer_prefix_pat, prefix_of.
  repeat (rewrite app_cons || rewrite app_nil_l || rewrite app_assoc').
  repeat (rewrite re_match_lit || rewrite re_match_dot by done).
  rewrite re_match_Plus.
  rewrite (plus_match_digits _ ds c3 rest (String c3 "")); [done..|].
  by rewrite re_match_dot.
Qed.

(** X1 (what matches).  A key that starts with ["model"], a character,
    ["layers"], a character, one or more digits and a character that is not a
    digit, none of the three characters being a newline, matches the pattern,
    and the text matched is exactly that initial segment: for
    [model.layers.12.mlp...] it is [model.layers.12.], and other separators
    than dots match as well. *)
Theorem match_layer_prefix_complete c1 c2 ds c3 rest :
  atom_ok Dot c1 = true → atom_ok Dot c2 = true →
  ds ≠ "" → all_ok Digit ds = true →
  atom_ok Dot c3 = true → is_digit c3 = false →
  match_layer_prefix (prefix_of c1 c2 ds c3 +:+ rest) = Some (prefix_of c1 c2 ds c3).
Proof. apply match_prefix_of. Qed.

Lemma match_layer_prefix_sound k p :
  match_layer_prefix k = Some p →
  ∃ c1 c2 ds c3 rest,
    p = prefix_of c1 c2 ds c3 ∧ k = p +:+ rest ∧
    atom_ok Dot c1 = true ∧ atom_ok Dot c2 = true ∧
    ds ≠ "" ∧ all_ok Digit ds = true ∧ atom_ok Dot c3 = true.
Proof.
  unfold match_layer_prefix, layer_prefix_pat. intros H.
  repeat (apply re_match_One in H as (? & ? & ? & -> & ?Hc & H & ->)).
  rewrite re_match_Plus in H.
  apply plus_match_shape in H as (ds & rest & m & -> & Hne & Hds & H & ->).
  apply re_match_One in H as (cz & rest' & m' & -> & Hcz & H & ->).
  injection H as <-.
  repeat match goal with
  | Hc : atom_ok (Lit _) _ = true |- _ => apply bool_decide_eq_true in Hc; subst
  end.
  eexists _, _, ds, cz, rest'. split; [reflexivity|].
  split; [|done].
  unfold prefix_of. rewrite !app_cons. do 13 f_equal. by rewrite app_assoc'.
Qed.

Lemma all_ok_app a s t : all_ok a (s +:+ t) = all_ok a s && all_ok a t.
Proof.
  induction s as [|c s IH]; [done|]. rewrite app_cons. simpl. by rewrite IH, andb_assoc.
Qed.

Lemma source_suffix_head src :
  src ∈ source_suffixes →
  ∃ a src', src = String a src' ∧ is_digit a = false ∧ atom_ok Dot a = true.
Proof.
  intros Hsrc. vm_compute in Hsrc.
  repeat (apply elem_of_cons in Hsrc as [->|Hsrc]; [by eexists _, _|]).
  by apply elem_of_nil in Hsrc.
Qed.

Lemma source_key_matches k p src :
  match_layer_prefix k = Some p → src ∈ source_suffixes →
  is_Some (match_layer_prefix (p +:+ src)).
Proof.
  intros (c1 & c2 & ds & c3 & rest & -> & _ & H1 & H2 & Hne & Hds & H3)%match_layer_prefix_sound Hsrc.
  destruct (is_digit c3) eqn:Hd.
  - apply source_suffix_head in Hsrc as (a & src' & -> & Ha & Ha').
    assert (prefix_of c1 c2 ds c3 +:+ String a src'
            = prefix_of c1 c2 (ds +:+ String c3 "") a +:+ src') as ->.
    { unfold prefix_of.
      repeat (rewrite app_cons || rewrite app_nil_l || rewrite app_assoc'). done. }
    rewrite match_prefix_of; [by eexists|done..| | |done|done].
    + by destruct ds.
    + rewrite all_ok_app, Hds. simpl. by rewrite Hd.
  - rewrite match_prefix_of by done. by eexists.
Qed.

Lemma source_in_suffixes r src :
  r ∈ correspondence_table → src ∈ sources (value r) → src ∈ source_suffixes.
Proof. intros Hr Hsrc. unfold source_suffixes. apply list_elem_of_bind. eauto. Qed.


Section further.
Context {torch : Torch}.

Lemma steps_of_ext hf hf' ps :
  (∀ p, p ∈ ps → layer_steps hf p = layer_steps hf' p) →
  steps_of hf ps = steps_of hf' ps.
Proof.
  unfold steps_of. induction ps as [|p ps IH]; intros Hext; [done|].
  rewrite !bind_cons, Hext by left. f_equal. apply IH. intros q Hq. apply Hext. by right.
Qed.

Lemma layer_steps_ext hf hf' p :
  (∀ src, src ∈ source_suffixes → hf' !! (p +:+ src) = hf !! (p +:+ src)) →
  layer_steps hf' p = layer_steps hf p.
Proof.
  intros Hext. unfold layer_steps. apply list_fmap_ext. intros i r Hr.
  f_equal. apply eval_rhs_ext. intros src Hsrc. apply Hext.
  eapply source_in_suffixes; [|done]. by eapply list_elem_of_lookup_2.
Qed.

(** X2 (what is collected).  Every layer prefix collected from a source
    dict is an initial segment of one of its keys and consists of ["model"], a
    character, ["layers"], a character, one or more digits and one more
    character, none of the three characters being a newline. *)
Theorem collected_prefix_shape hf p :
  p ∈ collect_layer_prefixes hf →
  ∃ k c1 c2 ds c3 rest,
    is_Some (hf !! k) ∧ k = p +:+ rest ∧ p = prefix_of c1 c2 ds c3 ∧
    atom_ok Dot c1 = true ∧ atom_ok Dot c2 = true ∧
    ds ≠ "" ∧ all_ok Digit ds = true ∧ atom_ok Dot c3 = true.
Proof.
  intros (k & Hk & (c1 & c2 & ds & c3 & rest & ? & ? & ?)%match_layer_prefix_sound)%elem_of_collect.
  by exists k, c1, c2, ds, c3, rest.
Qed.

(** X3 (target keys do not collide).  Two rules under two collected
    layer prefixes address the same target key only if they are the same rule
    under the same prefix: [model.layers.1.] and [model.layers.12.] never
    write to each other's parameters. *)
Theorem target_keys_never_collide hf1 hf2 p1 p2 r1 r2 :
  p1 ∈ collect_layer_prefixes hf1 → p2 ∈ collect_layer_prefixes hf2 →
  r1 ∈ correspondence_table → r2 ∈ correspondence_table →
  p1 +:+ target r1 = p2 +:+ target r2 → p1 = p2 ∧ r1 = r2.
Proof.
  intros Hp1 Hp2 Hr1 Hr2 E.
  apply target_key_inj in E as [-> Ht];
    [| by eapply collect_valid | by eapply collect_valid
     | by apply target_in_suffixes | by apply target_in_suffixes].
  split; [done|]. by apply table_target_inj.
Qed.

(** X4 (prefixes of a merged dict).  The layer prefixes collected from
    the union of two source dicts are those collected from the one together
    with those collected from the other. *)
Theorem collect_layer_prefixes_union hf1 hf2 :
  collect_layer_prefixes (hf1 ∪ hf2)
  = collect_layer_prefixes hf1 ∪ collect_layer_prefixes hf2.
Proof. apply collect_union. Qed.

(** ** Calls of [replace_params] *)

Lemma untargeted_spec hf te :
  untargeted hf te ↔
  ∀ p r, p ∈ collect_layer_prefixes hf → r ∈ correspondence_table → ¬ applicable te p r.
Proof.
  unfold untargeted, set_Forall. split.
  - intros Hall p r Hp Hr. exact (proj1 (Forall_forall _ _) (Hall p Hp) r Hr).
  - intros Hall p Hp. apply Forall_forall. intros r Hr. by apply Hall.
Qed.

Lemma table_nodup : NoDup correspondence_table.
Proof. apply (NoDup_fmap_1 target). apply targets_nodup. Qed.

(** Source dicts that agree on the keys matching the pattern give the same
    assignments. *)
Lemma plan_agree {order : PySet} hf hf' :
  (∀ k, is_Some (match_layer_prefix k) → hf !! k = hf' !! k) →
  collect_layer_prefixes hf = collect_layer_prefixes hf' ∧
  steps_of hf (set_iter (collect_layer_prefixes hf))
  = steps_of hf' (set_iter (collect_layer_prefixes hf')).
Proof.
  intros Hagree.
  assert (collect_layer_prefixes hf = collect_layer_prefixes hf') as Hcol.
  { apply set_eq. intros p. rewrite !elem_of_collect.
    split; intros (k & Hk & Hm); exists k; (split; [|done]).
    - by rewrite <-Hagree by (by rewrite Hm).
    - by rewrite Hagree by (by rewrite Hm). }
  split; [done|]. rewrite <-Hcol.
  apply steps_of_ext.
  intros p (k & _ & Hm)%set_iter_elem%elem_of_collect.
  symmetry. apply layer_steps_ext. intros src Hsrc.
  symmetry. apply Hagree. by eapply source_key_matches.
Qed.

(** X5 (iteration order).  Under any two iteration orders of the prefix
    set a call behaves alike: if it returns under the one, it returns under the
    other with the same target dict and the same set, and if it raises under
    the one, it raises under the other; what it raises there is the exception
    of some rule whose target key exists, raised on the tensor the target dict
    held before the call. *)
Theorem replace_params_order_independent (order1 order2 : PySet) hf te :
  (∀ te' ps, replace_params (order:=order1) hf te = (te', inr ps) →
             replace_params (order:=order2) hf te = (te', inr ps)) ∧
  (∀ te' e, replace_params (order:=order1) hf te = (te', inl e) →
            ∃ te'' e', replace_params (order:=order2) hf te = (te'', inl e') ∧
                       dom te'' = dom te ∧
                       ∃ p r t, p ∈ collect_layer_prefixes hf ∧ r ∈ correspondence_table ∧
                                te !! (p +:+ target r) = Some t ∧
                                assign hf p r t = inl e').
Proof.
  split; [apply replace_params_order_irrelevant|].
  intros te' e Hrun.
  destruct (replace_params_raises_anyway order1 order2 hf te te' e Hrun) as (te'' & e' & Hrun2).
  exists te'', e'. split; [done|]. by apply (replace_params_inl (order:=order2)) in Hrun2.
Qed.

(** X6 (only layer entries are read).  Two source dicts that agree on every
    key matching the pattern give the same call, whatever the order in which
    each call iterates its set of prefixes: if the one call returns, the other
    returns with the same target dict and the same set, and if the one raises,
    so does the other.  Entries such as the embeddings or the output head have
    no influence. *)
Theorem replace_params_reads_layer_entries_only (order1 order2 : PySet) hf hf' te :
  (∀ k, is_Some (match_layer_prefix k) → hf !! k = hf' !! k) →
  (∀ te' ps, replace_params (order:=order1) hf te = (te', inr ps) →
             replace_params (order:=order2) hf' te = (te', inr ps)) ∧
  (∀ te' e, replace_params (order:=order1) hf te = (te', inl e) →
            ∃ te'' e', replace_params (order:=order2) hf' te = (te'', inl e')).
Proof.
  intros Hagree.
  destruct (plan_agree (order:=order2) hf hf' Hagree) as [Hcol Hplan].
  assert (replace_params (order:=order2) hf' te = replace_params (order:=order2) hf te) as ->.
  { by rewrite !replace_params_run, <-Hplan, <-Hcol. }
  split.
  - apply replace_params_order_irrelevant.
  - apply replace_params_raises_anyway.
Qed.

Section replace_params_extras.
Context {order : PySet}.

(** X7 (nothing to write to).  When the target dict has none of the target
    keys of the layer prefixes of the source dict, the call returns those
    prefixes and the target dict is as it was, whatever the source dict lacks. *)
Theorem replace_params_untargeted hf te :
  untargeted hf te → replace_params hf te = (te, inr (collect_layer_prefixes hf)).
Proof.
  intros Hun. pose proof (proj1 (untargeted_spec hf te) Hun) as Hno.
  apply replace_params_remapped. split_and!; [done| |done].
  intros p r t Hp Hr Ht. destruct (Hno p r Hp Hr). by exists t.
Qed.

(** X8 (smaller targets).  When a call returns on a target dict, it also
    returns, with the same set, on every part of that target dict, and the
    result there is the corresponding part of the result: a model with fewer
    parameters gets the same values for the parameters it has. *)
Theorem replace_params_target_monotone hf te_s te te' ps :
  te_s ⊆ te → replace_params hf te = (te', inr ps) →
  ∃ te_s', replace_params hf te_s = (te_s', inr ps) ∧ te_s' ⊆ te'.
Proof.
  intros Hsub (-> & Hrem)%replace_params_inr.
  pose proof Hrem as (Hd & Hw & Hf).
  assert (rules_succeed hf te_s) as Hok_s.
  { apply (rules_succeed_weaken hf te); [|by eapply remapped_rules_succeed].
    intros p r t _ _ Ht. by eapply lookup_weaken. }
  destruct (replace_params_ok hf te_s Hok_s) as [te_s' Hrun].
  exists te_s'. split; [done|].
  apply replace_params_inr in Hrun as (_ & Hd_s & Hw_s & Hf_s).
  apply map_subseteq_spec. intros k v Hk.
  destruct (decide (k ∈ (steps_of hf (set_iter (collect_layer_prefixes hf))).*1)) as [Hin|Hnin].
  - apply plan_keys in Hin as (p & r & Hp & Hr & ->).
    assert (is_Some (te_s !! (p +:+ target r))) as [t Ht].
    { apply elem_of_dom. rewrite <-Hd_s. apply elem_of_dom. by eexists. }
    destruct (Hw_s p r t Hp Hr Ht) as (t1 & Ha1 & Hn1).
    destruct (Hw p r t Hp Hr) as (t2 & Ha2 & Hn2); [by eapply lookup_weaken|].
    congruence.
  - assert (∀ p r, p ∈ collect_layer_prefixes hf → r ∈ correspondence_table →
                   k ≠ p +:+ target r) as Hne.
    { intros p r Hp Hr ->. apply Hnin, plan_keys. eauto. }
    rewrite Hf_s in Hk by done. rewrite Hf by done. by eapply lookup_weaken.
Qed.

(** X9 (a later source overrides).  When a call from [hf1] is followed by
    a call from [hf2] whose layer prefixes include those of [hf1], and both
    return, the target dict ends as if only the call from [hf2] had been
    made. *)
Theorem replace_params_later_overrides hf1 hf2 te te1 te2 ps1 ps2 :
  collect_layer_prefixes hf1 ⊆ collect_layer_prefixes hf2 →
  replace_params hf1 te = (te1, inr ps1) →
  replace_params hf2 te1 = (te2, inr ps2) →
  replace_params hf2 te = (te2, inr ps2).
Proof.
  intros Hsub (_ & Hrem1)%replace_params_inr (-> & Hrem2)%replace_params_inr.
  pose proof Hrem1 as (Hd1 & Hw1 & Hf1). pose proof Hrem2 as (Hd2 & Hw2 & Hf2).
  apply replace_params_remapped. split_and!.
  - by rewrite Hd2.
  - intros p r t Hp Hr Ht.
    destruct (decide (p ∈ collect_layer_prefixes hf1)) as [Hp1|Hp1].
    + destruct (Hw1 p r t Hp1 Hr Ht) as (t1 & Ha1 & Hn1).
      destruct (Hw2 p r t1 Hp Hr Hn1) as (t2 & Ha2 & Hn2).
      exists t2. split; [|done].
      unfold assign in *. by rewrite <-(store_layout t _ t1 _ Ha1).
    + apply Hw2; [done..|].
      by rewrite (remapped_frame_prefix hf1 hf2 te te1).
  - intros k Hk. rewrite Hf2 by done. apply Hf1.
    intros p r Hp Hr. apply Hk; [|done]. by apply Hsub.
Qed.

Lemma remapped_both_sym hf1 hf2 te te' :
  remapped_both hf1 hf2 te te' → remapped_both hf2 hf1 te te'.
Proof.
  intros (Hd & Hw1 & Hw2 & Hf). split_and!; [done..|].
  intros k Hk. apply Hf. intros p r Hp Hr. apply Hk; [|done].
  apply elem_of_union in Hp as [?|?]; apply elem_of_union; auto.
Qed.

Lemma remapped_both_unique hf1 hf2 te te1 te2 :
  remapped_both hf1 hf2 te te1 → remapped_both hf1 hf2 te te2 → te1 = te2.
Proof.
  intros (Hd1 & Hwa1 & Hwb1 & Hf1) (Hd2 & Hwa2 & Hwb2 & Hf2).
  assert (∀ k, te !! k = None → te1 !! k = te2 !! k) as Hnone.
  { intros k Hk. apply not_elem_of_dom in Hk.
    transitivity (@None tensor); [|symmetry]; apply not_elem_of_dom; congruence. }
  apply map_eq. intros k.
  destruct (decide (k ∈ (steps_of hf1 (set_iter (collect_layer_prefixes hf1))).*1)) as [Hk|Hk1].
  { apply plan_keys in Hk as (p & r & Hp & Hr & ->).
    destruct (te !! (p +:+ target r)) as [t|] eqn:Ht; [|by apply Hnone].
    destruct (Hwa1 p r t Hp Hr Ht) as (t1 & Ha1 & ->).
    destruct (Hwa2 p r t Hp Hr Ht) as (t2 & Ha2 & ->). congruence. }
  destruct (decide (k ∈ (steps_of hf2 (set_iter (collect_layer_prefixes hf2))).*1)) as [Hk|Hk2].
  { apply plan_keys in Hk as (p & r & Hp & Hr & ->).
    destruct (te !! (p +:+ target r)) as [t|] eqn:Ht; [|by apply Hnone].
    destruct (Hwb1 p r t Hp Hr Ht) as (t1 & Ha1 & ->).
    destruct (Hwb2 p r t Hp Hr Ht) as (t2 & Ha2 & ->). congruence. }
  rewrite Hf1, Hf2; [done|..]; intros p r [Hp|Hp]%elem_of_union Hr ->;
    first [apply Hk1, plan_keys; by eauto | apply Hk2, plan_keys; by eauto].
Qed.

(** Remapping from [hf1] and then from [hf2], when they share no layer
    prefix. *)
Lemma remapped_then hf1 hf2 te te1 te12 :
  collect_layer_prefixes hf1 ## collect_layer_prefixes hf2 →
  remapped hf1 te te1 → remapped hf2 te1 te12 → remapped_both hf1 hf2 te te12.
Proof.
  intros Hdisj Hrem1 Hrem2.
  pose proof Hrem1 as (Hd1 & Hw1 & Hf1). pose proof Hrem2 as (Hd2 & Hw2 & Hf2).
  split_and!.
  - by rewrite Hd2.
  - intros p r t Hp Hr Ht.
    destruct (Hw1 p r t Hp Hr Ht) as (t' & Ha & Hnew). exists t'. split; [done|].
    rewrite (remapped_frame_prefix hf2 hf1 te1 te12); [done..| |done].
    intros Hp2. by apply (Hdisj p).
  - intros p r t Hp Hr Ht. apply Hw2; [done..|].
    rewrite (remapped_frame_prefix hf1 hf2 te te1); [done..| |done].
    intros Hp1. by apply (Hdisj p).
  - intros k Hk. rewrite Hf2, Hf1; [done|..]; intros p r Hp Hr; apply Hk; [|done| |done];
      apply elem_of_union; auto.
Qed.

(** X10 (calls commute).  Two returning calls from source dicts that share
    no layer prefix can be made in the other order: the other order returns
    too, with the same sets, and ends in the same target dict. *)
Theorem replace_params_commute hf1 hf2 te te1 te12 ps1 ps2 :
  collect_layer_prefixes hf1 ## collect_layer_prefixes hf2 →
  replace_params hf1 te = (te1, inr ps1) →
  replace_params hf2 te1 = (te12, inr ps2) →
  ∃ te2, replace_params hf2 te = (te2, inr ps2) ∧
         replace_params hf1 te2 = (te12, inr ps1).
Proof.
  intros Hdisj (-> & Hrem1)%replace_params_inr (-> & Hrem2)%replace_params_inr.
  assert (rules_succeed hf2 te) as Hok2.
  { apply (rules_succeed_weaken hf2 te1); [|by eapply remapped_rules_succeed].
    intros p r t Hp Hr Ht.
    rewrite (remapped_frame_prefix hf1 hf2 te te1); [done..| |done].
    intros Hp1. by apply (Hdisj p). }
  destruct (replace_params_ok hf2 te Hok2) as [te2 Hrun2].
  exists te2. split; [done|].
  apply replace_params_inr in Hrun2 as (_ & Hrem3).
  assert (rules_succeed hf1 te2) as Hok1.
  { apply (rules_succeed_weaken hf1 te); [|by eapply remapped_rules_succeed].
    intros p r t Hp Hr Ht.
    rewrite <-(remapped_frame_prefix hf2 hf1 te te2); [done..| |done].
    intros Hp2. by apply (Hdisj p). }
  destruct (replace_params_ok hf1 te2 Hok1) as [te21 Hrun1]. rewrite Hrun1.
  apply replace_params_inr in Hrun1 as (_ & Hrem4).
  f_equal. apply (remapped_both_unique hf1 hf2 te).
  - apply remapped_both_sym. by apply (remapped_then hf2 hf1 te te2).
  - by apply (remapped_then hf1 hf2 te te1).
Qed.

(** X11 (no other values).  After a call, returning or raising, every
    entry of the target dict is either as before or holds the tensor it held
    before with the value of an applicable rule of a collected prefix copied
    into it by the slice assignment: the value as it is when shape and dtype
    agree, the value broadcast and converted otherwise. *)
Theorem replace_params_values hf te k :
  (replace_params hf te).1 !! k = te !! k ∨
  ∃ p r v t t', p ∈ collect_layer_prefixes hf ∧ r ∈ correspondence_table ∧
                k = p +:+ target r ∧ te !! k = Some t ∧
                eval_rhs hf p (value r) = inr v ∧ data_setslice t v = inr t' ∧
                (replace_params hf te).1 !! k = Some t'.
Proof.
  assert ((replace_params hf te).1
          = (run_steps (steps_of hf (set_iter (collect_layer_prefixes hf))) te).1) as ->.
  { rewrite replace_params_run. by destruct (run_steps _ te) as [te' [e|[]]]. }
  destruct (run_steps_values (steps_of hf (set_iter (collect_layer_prefixes hf))) te k)
    as [Heq|(v & t & t' & (p & r & Hp & Hr & -> & ->)%plan_elem & Ht & Hst & Heq)];
    [apply plan_nodup|by left|].
  right. fold (assign hf p r t) in Hst. apply assign_inr in Hst as (v & Hv & Hcopy).
  by exists p, r, v, t, t'.
Qed.

(** X12 (where it raises).  When exactly one applicable rule, [r] under
    [p], does not go through, the call raises the exception of [r]: the
    lookup failure of its first missing source key, or what torch raises on
    its tensors.  At that point the applicable rules that precede [r] in the
    table have been carried out under [p], and the targets of [r] and of
    the rules after it are as before under [p]: nothing is rolled back. *)
Theorem replace_params_raises_at_gap hf te p before r after t e :
  p ∈ collect_layer_prefixes hf →
  correspondence_table = before ++ r :: after →
  te !! (p +:+ target r) = Some t → assign hf p r t = inl e →
  (∀ p' r' t', p' ∈ collect_layer_prefixes hf → r' ∈ correspondence_table →
               te !! (p' +:+ target r') = Some t' → (p', r') ≠ (p, r) →
               succeeds (assign hf p' r' t')) →
  ∃ te', replace_params hf te = (te', inl e) ∧
    (∀ r' t0, r' ∈ before → te !! (p +:+ target r') = Some t0 →
              ∃ t1, assign hf p r' t0 = inr t1 ∧ te' !! (p +:+ target r') = Some t1) ∧
    (∀ r', r' ∈ r :: after → te' !! (p +:+ target r') = te !! (p +:+ target r')).
Proof.
  intros Hp Htable Ht He Hothers.
  pose proof table_nodup as Hnd. rewrite Htable in Hnd.
  apply NoDup_app in Hnd as (Hnd_before & Hsep & Hnd_after).
  assert (∀ r', r' ∈ before → r' ∈ correspondence_table) as Hin_before.
  { intros r' Hr'. rewrite Htable. apply elem_of_app. by left. }
  assert (∀ r', r' ∈ r :: after → r' ∈ correspondence_table) as Hin_after.
  { intros r' Hr'. rewrite Htable. apply elem_of_app. by right. }
  pose proof (plan_nodup hf) as Hplan.
  pose proof (set_iter_nodup (collect_layer_prefixes hf)) as Hps.
  assert (∀ q, q ∈ set_iter (collect_layer_prefixes hf) → q ∈ collect_layer_prefixes hf)
    as Hmem by (intros q; apply set_iter_elem).
  rewrite replace_params_run. pose proof Hp as Hp0.
  apply set_iter_elem, list_elem_of_split in Hp as (l1 & l2 & Hsplit).
  rewrite Hsplit in Hps, Hmem.
  apply NoDup_app in Hps as (_ & Hl1 & _).
  set (f := λ r', (p +:+ target r', eval_rhs hf p (value r'))).
  assert (steps_of hf (set_iter (collect_layer_prefixes hf))
          = (steps_of hf l1 ++ (f <$> before)) ++ f r :: ((f <$> after) ++ steps_of hf l2))
    as Hsteps.
  { rewrite Hsplit. unfold steps_of. rewrite bind_app, bind_cons.
    unfold layer_steps at 2. rewrite Htable, fmap_app, fmap_cons.
    by rewrite <-!app_assoc. }
  rewrite Hsteps in Hplan. rewrite Hsteps. clear Hsteps.
  rewrite fmap_app in Hplan. apply NoDup_app in Hplan as (HndA & HsepA & _).
  set (A := steps_of hf l1 ++ (f <$> before)) in *.
  assert (∀ k v, (k, v) ∈ A →
            ∃ p' r', p' ∈ collect_layer_prefixes hf ∧ r' ∈ correspondence_table ∧
                     (p', r') ≠ (p, r) ∧ k = p' +:+ target r' ∧
                     v = eval_rhs hf p' (value r') ∧
                     (p' = p → r' ∈ before)) as HA.
  { intros k v [Hin|Hin]%elem_of_app.
    - apply steps_of_elem in Hin as (p' & r' & Hp' & Hr' & -> & ->).
      exists p', r'. split_and!; [|done| |done|done|].
      + apply Hmem, elem_of_app. by left.
      + intros [= -> _]. apply (Hl1 p); [done|left].
      + intros ->. destruct (Hl1 p); [done|left].
    - apply list_elem_of_fmap in Hin as (r' & [= -> ->] & Hr').
      exists p, r'. split_and!; [|by apply Hin_before| |done|done|done].
      + apply Hmem, elem_of_app. right. left.
      + intros [= ->]. apply (Hsep r); [done|left]. }
  destruct (run_steps_ok A te) as [teA HrunA]; [done| |].
  { intros k v t' (p' & r' & Hp' & Hr' & Hne & -> & -> & _)%HA Hlook.
    by apply (Hothers p' r' t'). }
  rewrite run_steps_app, HrunA.
  pose proof (run_steps_frame A te (p +:+ target r)) as Hsame.
  rewrite HrunA in Hsame. simpl in Hsame.
  cbn [run_steps]. unfold f at 1.
  rewrite Hsame, Ht by (intros HinA; apply (HsepA _ HinA); left).
  fold (assign hf p r t). rewrite He.
  exists teA. split; [done|]. split.
  - intros r' t0 Hr' Ht0.
    eapply (run_steps_lookup A te teA); [done|done| |done].
    apply elem_of_app. right. apply list_elem_of_fmap. by exists r'.
  - intros r' Hr'.
    pose proof (run_steps_frame A te (p +:+ target r')) as Hframe.
    rewrite HrunA in Hframe. apply Hframe.
    intros ([k v] & Hk & (p' & r'' & Hp' & Hr'' & Hne & -> & -> & Hbefore)%HA)%list_elem_of_fmap.
    simpl in Hk.
    apply target_key_inj in Hk as [<- Htgt];
      [| by eapply collect_valid | by eapply collect_valid
       | by apply target_in_suffixes, Hin_after | by apply target_in_suffixes].
    apply table_target_inj in Htgt as ->; [|by apply Hin_after|done].
    apply (Hsep r''); [by apply Hbefore|done].
Qed.

End replace_params_extras.
End further.

(** ** The context manager and the loader *)

(** X13 (the context manager).  [with replace_decoder(cls): body] runs the
    body with [cls] in the class slot; whatever the body does, return, raise
    or write the slot, the statement ends with the outcome of the body, with
    everything else as the body left it, and with the slot holding the class
    it held on entry. *)
Theorem replace_decoder_restores {A} (body : M process A) te_decodder_cls p :
  ∃ p_body r,
    body (Process (World te_decodder_cls (files (globals p)) (dirs (globals p))) (calls p))
      = (p_body, r) ∧
    replace_decoder te_decodder_cls body p
      = (Process (World (LlamaDecoderLayer (globals p))
                        (files (globals p_body)) (dirs (globals p_body)))
                 (calls p_body), r).
Proof.
  unfold replace_decoder, mbind, M_bind, bind, try_finally,
    get_LlamaDecoderLayer, set_LlamaDecoderLayer, modify.
  simpl. destruct (body _) as [p_body r]. by exists p_body, r.
Qed.

(** X14 (nesting).  Inside a substitution a second substitution wins and
    both are undone on exit: nesting [replace_decoder cls1] around
    [replace_decoder cls2] behaves as [replace_decoder cls2] alone. *)
Theorem replace_decoder_nested {A} (body : M process A) cls1 cls2 p :
  replace_decoder cls1 (replace_decoder cls2 body) p = replace_decoder cls2 body p.
Proof.
  unfold replace_decoder, mbind, M_bind, bind, try_finally,
    get_LlamaDecoderLayer, set_LlamaDecoderLayer, modify.
  simpl. by destruct (body _) as [p_body r].
Qed.

Section loading_extras.
Context {torch : Torch} {tf : Transformers} {order : PySet}.



(** X17 (remapping fails in the loop).  When a shard is read and
    [replace_params] raises on it, the shard loop raises that exception at
    once: the model-loading collaborator is not called for this shard and no
    later shard is read. *)
Theorem load_shards_remap_failure shard_file rest m msgs p w sd te' e :
  load_state_dict shard_file (globals p) = (w, inr sd) →
  replace_params sd (parameters m) = (te', inl e) →
  load_shards (shard_file :: rest) m msgs p
  = (Process w (calls p ++ [CallLoadStateDict shard_file]), inl e).
Proof.
  intros Hload Hremap. cbn [load_shards].
  unfold mbind, M_bind, bind, extern. rewrite Hload.
  unfold replace_params_in_model. simpl. by rewrite Hremap.
Qed.

(** X18 (the loop runs left to right).  Loading a list of shards is loading
    an initial part of it and then, from the model and messages reached, the
    rest; an exception in the first part ends the loop. *)
Theorem load_shards_app shards1 shards2 m msgs p :
  load_shards (shards1 ++ shards2) m msgs p
  = match load_shards shards1 m msgs p with
    | (p', inr (m', msgs')) => load_shards shards2 m' msgs' p'
    | (p', inl e) => (p', inl e)
    end.
Proof.
  revert m msgs p. induction shards1 as [|f shards1 IH]; intros m msgs p; [done|].
  rewrite <-app_comm_cons. cbn [load_shards]. unfold mbind, M_bind, bind.
  destruct (extern (CallLoadStateDict f) (load_state_dict f) p) as [p1 [e|sd]]; [done|].
  destruct (replace_params_in_model sd m p1) as [p2 [e|[m' replaced]]]; [done|].
  destruct (extern CallLoadStateDictIntoModel _ p2) as [p3 [e|[m'' msgs']]]; [done|].
  apply IH.
Qed.

End loading_extras.

(* ===================================================================== *)
(** * The further properties at work on the samples                       *)
(* ===================================================================== *)

Section extras_at_work.
Import Samples.
Local Existing Instance int64_vectors.

Local Ltac by_compute := apply (bool_decide_unpack _); vm_compute; exact I.

(** The slice assignment broadcasts: the key projection of the checkpoint,
    of one element, fills a target of two, which then differs from its source
    although every key is there. *)
Example copy_broadcasts :
  let run := replace_params (order:=elements_order) shard1 te_wide in
  complete_source shard1 ∧ complete_target shard1 te_wide ∧ ¬ conforming shard1 te_wide ∧
  run.2 = inr ({[ "model.layers.0." ]} : gset string) ∧
  shard1 !! "model.layers.0.self_attn.k_proj.weight" = Some [105%Z] ∧
  run.1 !! "model.layers.0.self_attention.layernorm_qkv.key_weight" = Some [105; 105]%Z.
Proof. intros run. split_and!; by_compute. Qed.

(** And it refuses a value that cannot be broadcast: two elements do not go
    into three. *)
Example copy_refuses_misfit :
  let run := replace_params (order:=elements_order) shard1 te_misfit in
  complete_source shard1 ∧ complete_target shard1 te_misfit ∧ ¬ conforming shard1 te_misfit ∧
  run.2 = inl RuntimeError.
Proof. intros run. split_and!; by_compute. Qed.

(** A key with dots and a key with other separators. *)
Lemma match_layer_prefix_complete_witness :
  match_layer_prefix "model.layers.12.mlp.up_proj.weight" = Some "model.layers.12." ∧
  match_layer_prefix "model/layers-007:weight" = Some "model/layers-007:".
Proof.
  split.
  - exact (match_layer_prefix_complete "." "." "12" "." "mlp.up_proj.weight"
             eq_refl eq_refl ltac:(discriminate) eq_refl eq_refl eq_refl).
  - exact (match_layer_prefix_complete "/" "-" "007" ":" "weight"
             eq_refl eq_refl ltac:(discriminate) eq_refl eq_refl eq_refl).
Defined.

Lemma collected_prefix_shape_witness :
  "model.layers.0." ∈ collect_layer_prefixes shard1 ∧
  ∃ k c1 c2 ds c3 rest,
    is_Some (shard1 !! k) ∧ k = "model.layers.0." +:+ rest ∧
    "model.layers.0." = prefix_of c1 c2 ds c3 ∧
    atom_ok Dot c1 = true ∧ atom_ok Dot c2 = true ∧
    ds ≠ "" ∧ all_ok Digit ds = true ∧ atom_ok Dot c3 = true.
Proof.
  assert ("model.layers.0." ∈ collect_layer_prefixes shard1) as Hp by by_compute.
  split; [exact Hp|]. exact (collected_prefix_shape shard1 "model.layers.0." Hp).
Defined.

Lemma target_keys_never_collide_witness :
  let r := Rule "self_attention.proj.weight" (Copy "self_attn.o_proj.weight") in
  "model.layers.0." ∈ collect_layer_prefixes shard1 ∧
  "model.layers.0." ∈ collect_layer_prefixes ckpt ∧
  r ∈ correspondence_table ∧
  ("model.layers.0." : string) = "model.layers.0." ∧ r = r.
Proof.
  intros r.
  assert ("model.layers.0." ∈ collect_layer_prefixes shard1) as H1 by by_compute.
  assert ("model.layers.0." ∈ collect_layer_prefixes ckpt) as H2 by by_compute.
  assert (r ∈ correspondence_table) as Hr by (do 4 right; left).
  split; [exact H1|]. split; [exact H2|]. split; [exact Hr|].
  exact (target_keys_never_collide shard1 ckpt "model.layers.0." "model.layers.0." r r
           H1 H2 Hr Hr eq_refl).
Defined.

(** Both layers of the checkpoint, forwards and backwards. *)
Lemma replace_params_order_independent_witness :
  let te' : state_dict :=
    {[ "model.layers.0.self_attention.proj.weight" := [107; 108]%Z;
       "model.layers.1.self_attention.proj.weight" := [207; 208]%Z ]} in
  set_iter (PySet:=elements_order) (collect_layer_prefixes ckpt)
    ≠ set_iter (PySet:=reverse_order) (collect_layer_prefixes ckpt) ∧
  replace_params (order:=elements_order) ckpt te_pair
    = (te', inr {[ "model.layers.0."; "model.layers.1." ]}) ∧
  replace_params (order:=reverse_order) ckpt te_pair
    = (te', inr {[ "model.layers.0."; "model.layers.1." ]}).
Proof.
  intros te'.
  assert (replace_params (order:=elements_order) ckpt te_pair
          = (te', inr {[ "model.layers.0."; "model.layers.1." ]})) as Hrun
    by by_compute.
  split; [vm_compute; discriminate|]. split; [exact Hrun|].
  destruct (replace_params_order_independent elements_order reverse_order ckpt te_pair)
    as [Hret _].
  exact (Hret _ _ Hrun).
Defined.

(** The shard with and without its embeddings, each call with its own
    iteration order. *)
Lemma replace_params_reads_layer_entries_only_witness :
  let te' := (replace_params (order:=elements_order) shard1 te_one).1 in
  shard1 ≠ delete "model.embed_tokens.weight" shard1 ∧
  replace_params (order:=elements_order) shard1 te_one = (te', inr {[ "model.layers.0." ]}) ∧
  replace_params (order:=reverse_order) (delete "model.embed_tokens.weight" shard1) te_one
    = (te', inr {[ "model.layers.0." ]}).
Proof.
  intros te'.
  assert (replace_params (order:=elements_order) shard1 te_one
          = (te', inr {[ "model.layers.0." ]})) as Hrun by by_compute.
  split; [|split; [exact Hrun|]].
  - intros E. apply (f_equal (λ m : state_dict, m !! "model.embed_tokens.weight")) in E.
    vm_compute in E. discriminate E.
  - destruct (replace_params_reads_layer_entries_only elements_order reverse_order
                shard1 (delete "model.embed_tokens.weight" shard1) te_one) as [Hret _].
    + intros k Hk. destruct (decide (k = "model.embed_tokens.weight")) as [->|Hne].
      * vm_compute in Hk. destruct Hk as [? Hk]. discriminate Hk.
      * symmetry. by apply lookup_delete_ne.
    + exact (Hret _ _ Hrun).
Defined.

(** A model without decoder layers. *)
Lemma replace_params_untargeted_witness :
  untargeted shard_without_q (list_to_map others) ∧
  replace_params (order:=elements_order) shard_without_q (list_to_map others)
  = (list_to_map others, inr (collect_layer_prefixes shard_without_q)).
Proof.
  assert (untargeted shard_without_q (list_to_map others)) as Hun by by_compute.
  split; [exact Hun|].
  exact (replace_params_untargeted (order:=elements_order) _ _ Hun).
Defined.

Lemma replace_params_target_monotone_witness :
  let te' : state_dict :=
    {[ "model.layers.0.self_attention.proj.weight" := [107; 108]%Z;
       "model.layers.1.self_attention.proj.weight" := [207; 208]%Z ]} in
  te_small ⊆ te_pair ∧
  replace_params (order:=elements_order) ckpt te_pair
    = (te', inr {[ "model.layers.0."; "model.layers.1." ]}) ∧
  ∃ te_s', replace_params (order:=elements_order) ckpt te_small
             = (te_s', inr {[ "model.layers.0."; "model.layers.1." ]}) ∧
           te_s' ⊆ te'.
Proof.
  intros te'.
  assert (te_small ⊆ te_pair) as Hsub.
  { apply map_subseteq_spec. intros k v Hk.
    destruct (decide (k = "model.layers.0.self_attention.proj.weight")) as [->|Hne].
    - vm_compute in Hk. injection Hk as <-. vm_compute. reflexivity.
    - unfold te_small in Hk. by rewrite lookup_singleton_ne in Hk. }
  assert (replace_params (order:=elements_order) ckpt te_pair
          = (te', inr {[ "model.layers.0."; "model.layers.1." ]})) as Hrun
    by by_compute.
  split; [exact Hsub|]. split; [exact Hrun|].
  exact (replace_params_target_monotone (order:=elements_order) ckpt te_small te_pair _ _ Hsub Hrun).
Defined.

Lemma replace_params_later_overrides_witness :
  let te1 : state_dict :=
    {[ "model.layers.0.self_attention.proj.weight" := [107; 108]%Z ]} in
  let te2 : state_dict :=
    {[ "model.layers.0.self_attention.proj.weight" := [307; 308]%Z ]} in
  collect_layer_prefixes shard1 ⊆ collect_layer_prefixes shard1_again ∧
  replace_params (order:=elements_order) shard1 te_small = (te1, inr {[ "model.layers.0." ]}) ∧
  replace_params (order:=elements_order) shard1_again te1 = (te2, inr {[ "model.layers.0." ]}) ∧
  replace_params (order:=elements_order) shard1_again te_small = (te2, inr {[ "model.layers.0." ]}).
Proof.
  intros te1 te2.
  assert (collect_layer_prefixes shard1 ⊆ collect_layer_prefixes shard1_again) as Hsub
    by by_compute.
  assert (replace_params (order:=elements_order) shard1 te_small
          = (te1, inr {[ "model.layers.0." ]})) as H1 by by_compute.
  assert (replace_params (order:=elements_order) shard1_again te1
          = (te2, inr {[ "model.layers.0." ]})) as H2 by by_compute.
  split; [exact Hsub|]. split; [exact H1|]. split; [exact H2|].
  exact (replace_params_later_overrides (order:=elements_order) _ _ _ _ _ _ _ Hsub H1 H2).
Defined.

Lemma replace_params_commute_witness :
  let te1 : state_dict :=
    {[ "model.layers.0.self_attention.proj.weight" := [107; 108]%Z;
       "model.layers.1.self_attention.proj.weight" := [0; 0]%Z ]} in
  let te12 : state_dict :=
    {[ "model.layers.0.self_attention.proj.weight" := [107; 108]%Z;
       "model.layers.1.self_attention.proj.weight" := [207; 208]%Z ]} in
  collect_layer_prefixes shard1 ## collect_layer_prefixes shard2 ∧
  replace_params (order:=elements_order) shard1 te_pair = (te1, inr {[ "model.layers.0." ]}) ∧
  replace_params (order:=elements_order) shard2 te1 = (te12, inr {[ "model.layers.1." ]}) ∧
  ∃ te2, replace_params (order:=elements_order) shard2 te_pair
           = (te2, inr {[ "model.layers.1." ]}) ∧
         replace_params (order:=elements_order) shard1 te2
           = (te12, inr {[ "model.layers.0." ]}).
Proof.
  intros te1 te12.
  assert (collect_layer_prefixes shard1 ## collect_layer_prefixes shard2) as Hd
    by by_compute.
  assert (replace_params (order:=elements_order) shard1 te_pair
          = (te1, inr {[ "model.layers.0." ]})) as H1 by by_compute.
  assert (replace_params (order:=elements_order) shard2 te1
          = (te12, inr {[ "model.layers.1." ]})) as H2 by by_compute.
  split; [exact Hd|]. split; [exact H1|]. split; [exact H2|].
  exact (replace_params_commute (order:=elements_order) _ _ _ _ _ _ _ Hd H1 H2).
Defined.

(** The query projection of the model has three elements, that of the
    checkpoint two: the layer norm is written, torch refuses the copy into
    the query weight, and the query weight and what follows are as before. *)
Lemma replace_params_raises_at_gap_witness :
  let p := "model.layers.0." in
  let norm := Rule "self_attention.layernorm_qkv.layer_norm_weight"
                   (Copy "input_layernorm.weight") in
  let query := Rule "self_attention.layernorm_qkv.query_weight"
                    (Copy "self_attn.q_proj.weight") in
  ∃ te', replace_params (order:=elements_order) shard1 te_misfit = (te', inl RuntimeError) ∧
         te' !! (p +:+ target norm) = Some [101; 102]%Z ∧
         te' !! (p +:+ target query) = Some [0; 0; 0]%Z ∧
         te' !! "model.layers.0.layernorm_mlp.fc2_weight" = Some [0%Z].
Proof.
  intros p norm query.
  destruct (replace_params_raises_at_gap (order:=elements_order) shard1 te_misfit p
              [norm] query (drop 2 correspondence_table) [0; 0; 0]%Z RuntimeError)
    as (te' & Hrun & Hbefore & Hafter).
  - by_compute.
  - reflexivity.
  - vm_compute. reflexivity.
  - vm_compute. reflexivity.
  - intros p' r' t' Hp' Hr' Ht' Hne.
    assert (collect_layer_prefixes shard1 = {[ p ]}) as Hcol by by_compute.
    rewrite Hcol in Hp'. apply elem_of_singleton in Hp' as ->.
    assert (Forall (λ r', r' = query ∨
                          from_option (λ t', succeeds (assign shard1 p r' t')) True
                                      (te_misfit !! (p +:+ target r')))
                   correspondence_table) as Hall by by_compute.
    destruct (proj1 (Forall_forall _ _) Hall r' Hr') as [->|Hs]; [by destruct Hne|].
    rewrite Ht' in Hs. exact Hs.
  - exists te'. split; [exact Hrun|]. split_and!.
    + destruct (Hbefore norm [0; 0]%Z) as (t1 & Ha & Hnew);
        [left|vm_compute; reflexivity|].
      vm_compute in Ha. injection Ha as <-. exact Hnew.
    + etransitivity; [apply (Hafter query); left|]. vm_compute. reflexivity.
    + etransitivity;
        [apply (Hafter (Rule "layernorm_mlp.fc2_weight" (Copy "mlp.down_proj.weight")));
         do 6 right; left|].
      vm_compute. reflexivity.
Defined.



Lemma load_shards_remap_failure_witness :
  load_shards (tf:=broken_checkpoint) (order:=elements_order)
    ["a.bin"; "b.bin"] (Model TELlamaDecoderLayer te_norm_query) [] (Process sharded_disk [])
  = (Process sharded_disk [CallLoadStateDict "a.bin"],
     inl (KeyError "model.layers.0.self_attn.q_proj.weight")).
Proof.
  apply (load_shards_remap_failure (tf:=broken_checkpoint) (order:=elements_order)
           "a.bin" ["b.bin"] (Model TELlamaDecoderLayer te_norm_query) []
           (Process sharded_disk []) sharded_disk shard_without_q
           (<[ "model.layers.0.self_attention.layernorm_qkv.layer_norm_weight"
                 := [101; 102]%Z ]> te_norm_query)).
  - reflexivity.
  - by_compute.
Defined.

End extras_at_work.
